(** * taxo-morph: a shallow embedding of the data module and of the taxonomic
    loss model, with the properties of the specification proved on it.

    Sources embedded here:
    - [src/data.py]: [IGTLine], [load_data_file], [create_vocab],
      [create_gloss_vocab], [prepare_dataset];
    - [src/taxonomic_loss_model.py]: [get_hierarchy_matrix], the in-place
      label rewrite of [taxonomic_loss] and the aliasing set up by [forward].

    Conventions.  Python [str] values are Rocq [string]s; the model covers
    ASCII text, which is where the casing and whitespace tables below are
    exact.  Python [int]s are [Z], lengths and indices that the code only
    ever uses as non-negative positions are [nat].  A Python exception is
    the [Raise] result of the [result] type. *)

From Stdlib Require Import ZArith Ascii String Sorting.Sorted Permutation.
From stdpp Require Import base list strings sorting gmap.

Local Open Scope Z_scope.

(** ** Results of Python calls *)

Inductive exn : Set :=
| TypeError
| IndexError
| ValueError
| KeyError.

Inductive result (A : Type) : Type :=
| Ok (a : A)
| Raise (e : exn).

Arguments Ok {A} a.
Arguments Raise {A} e.

#[global] Instance result_ret : MRet result := fun A a => Ok a.

#[global] Instance result_bind : MBind result := fun A B k r =>
  match r with
  | Ok a => k a
  | Raise e => Raise e
  end.

(** ** Python string primitives *)

Module Py.

(** [str.isspace] on one character, for code points below 128:
    TAB, LF, VT, FF, CR, the four separators FS GS RS US, and SPACE.  The
    [\s] class of [re] on [str] patterns is the same set. *)
Definition isspace (c : ascii) : bool :=
  let n := N_of_ascii c in
  ((9 <=? n) && (n <=? 13) || (28 <=? n) && (n <=? 32))%N.

Definition is_ascii_upper (c : ascii) : bool :=
  let n := N_of_ascii c in ((65 <=? n) && (n <=? 90))%N.

Definition is_ascii_lower (c : ascii) : bool :=
  let n := N_of_ascii c in ((97 <=? n) && (n <=? 122))%N.

Definition lower_char (c : ascii) : ascii :=
  if is_ascii_upper c then ascii_of_N (N_of_ascii c + 32) else c.

(** [s.lower()] *)
Fixpoint lower (s : string) : string :=
  match s with
  | EmptyString => EmptyString
  | String c r => String (lower_char c) (lower r)
  end.

Fixpoint existsb_str (p : ascii → bool) (s : string) : bool :=
  match s with
  | EmptyString => false
  | String c r => p c || existsb_str p r
  end.

(** [s.isupper()]: at least one cased character and no lower-case one. *)
Definition isupper (s : string) : bool :=
  existsb_str is_ascii_upper s && negb (existsb_str is_ascii_lower s).

(** [s[:n]] and [s[n:]] for a non-negative literal [n]. *)
Fixpoint slice_to (n : nat) (s : string) : string :=
  match n, s with
  | S n', String c r => String c (slice_to n' r)
  | _, _ => EmptyString
  end.

Fixpoint slice_from (n : nat) (s : string) : string :=
  match n, s with
  | S n', String _ r => slice_from n' r
  | _, _ => s
  end.

Fixpoint lstrip (s : string) : string :=
  match s with
  | String c r => if isspace c then lstrip r else s
  | EmptyString => EmptyString
  end.

Fixpoint rstrip (s : string) : string :=
  match s with
  | EmptyString => EmptyString
  | String c r =>
      match rstrip r with
      | EmptyString => if isspace c then EmptyString else String c EmptyString
      | r' => String c r'
      end
  end.

(** [s.strip()] *)
Definition strip (s : string) : string := rstrip (lstrip s).

(** Pieces of [s] between maximal runs of characters satisfying [p];
    [in_run] tells that the previous character belonged to a run.  With
    [p := isspace] this is [re.split("\s+", s)]: leading and trailing
    empty pieces are kept. *)
Fixpoint split_runs (p : ascii → bool) (in_run : bool) (s : string) : list string :=
  match s with
  | EmptyString => [EmptyString]
  | String c r =>
      if p c then
        if in_run then split_runs p true r
        else EmptyString :: split_runs p true r
      else
        match split_runs p false r with
        | h :: t => String c h :: t
        | [] => [String c EmptyString]
        end
  end.

(** Pieces of [s] between single characters satisfying [p]:
    [re.split("-", s)] with [p] the test for a hyphen. *)
Fixpoint split_each (p : ascii → bool) (s : string) : list string :=
  match s with
  | EmptyString => [EmptyString]
  | String c r =>
      if p c then EmptyString :: split_each p r
      else
        match split_each p r with
        | h :: t => String c h :: t
        | [] => [String c EmptyString]
        end
  end.

Definition nonempty (s : string) : bool :=
  match s with EmptyString => false | _ => true end.

Definition re_split_ws (s : string) : list string := split_runs isspace false s.

Definition re_split_hyphen (s : string) : list string :=
  split_each (fun c => Ascii.eqb c "-"%char) s.

(** [s.split()] with no separator: the whitespace-delimited pieces, none
    of them empty. *)
Definition split (s : string) : list string :=
  List.filter nonempty (re_split_ws s).

(** [functools.reduce(f, l)] without an initial value. *)
Definition reduce {A : Type} (f : A → A → A) (l : list A) : result A :=
  match l with
  | [] => Raise TypeError
  | x :: r => Ok (fold_left f r x)
  end.

(** [[x] * k]: a list of [k] copies, empty when [k] is not positive. *)
Definition replicate {A : Type} (x : A) (k : Z) : list A :=
  List.repeat x (Z.to_nat k).

(** [l.index(x)] *)
Fixpoint index (l : list string) (x : string) : result Z :=
  match l with
  | [] => Raise ValueError
  | y :: r => if String.eqb y x then Ok 0 else i ← index r x; Ok (i + 1)
  end.

End Py.

(** ** The IGT record ([class IGTLine]) *)

Record IGTLine : Type := mkIGTLine {
  transcription : option string;
  segmentation : option string;
  glosses : option string;
  translation : option string;
  should_segment : bool
}.

(** The constructor [IGTLine(transcription, segmentation, glosses,
    translation)]: [should_segment] starts as [True]. *)
Definition IGTLine_init (t m g l : option string) : IGTLine :=
  mkIGTLine t m g l true.

Definition SEP : string := "[SEP]".

(** [IGTLine.gloss_list(segmented)].  The declared type is
    [Optional[List[str]]], so the returned value is an [option]. *)
Definition gloss_list (self : IGTLine) (segmented : bool) : result (option (list string)) :=
  match glosses self with
  | None => Ok (Some [])
  | Some g =>
      if negb segmented then Ok (Some (Py.split g))
      else
        let words := Py.re_split_ws g in
        let gl := List.map Py.re_split_hyphen words in
        let gl := List.map (List.filter Py.nonempty) gl in
        let gl := List.filter (fun w => negb (Nat.eqb (length w) 0)) gl in
        r ← Py.reduce (fun a b => a ++ [SEP] ++ b) gl;
        Ok (Some r)
  end.

(** [IGTLine.__dict__()], restricted to the keys that [prepare_dataset]
    reads.  A key that the method does not set is [None] here; [morphemes]
    is the external morpheme tokenizer applied to the segmentation. *)
Record row : Type := mkRow {
  row_glosses : option (list string);
  row_morphemes : option (list string)
}.

(** ** The corpus loader ([load_data_file]) *)

(** The pending record [current_entry]: transcription, segmentation,
    glosses, translation. *)
Record entry : Type := mkEntry {
  e_transc : option string;
  e_segm : option string;
  e_gloss : option string;
  e_transl : option string
}.

Definition empty_entry : entry := mkEntry None None None None.

Definition is_none {A : Type} (o : option A) : bool :=
  match o with None => true | Some _ => false end.

(** [current_entry == [None, None, None, None]] *)
Definition entry_is_empty (e : entry) : bool :=
  is_none (e_transc e) && is_none (e_segm e) && is_none (e_gloss e) && is_none (e_transl e).

Record loader_state : Type := mkLoader {
  all_data : list IGTLine;
  current_entry : entry
}.

Definition backslash : ascii := ascii_of_nat 92.

(** The two-character tag made of a backslash and [c]. *)
Definition tag (c : ascii) : string := String backslash (String c EmptyString).

(** The record appended when a blank line or the end of the file closes a
    pending entry: the translation is [None]. *)
Definition flush (st : loader_state) : loader_state :=
  let e := current_entry st in
  if negb (entry_is_empty e) then
    mkLoader (all_data st ++ [IGTLine_init (e_transc e) (e_segm e) (e_gloss e) None])
             empty_entry
  else st.

(** One iteration of [for line in file]. *)
Definition load_line (st : loader_state) (line : string) : loader_state :=
  let e := current_entry st in
  let line_prefix := Py.slice_to 2 line in
  let content := Py.strip (Py.slice_from 3 line) in
  if String.eqb line_prefix (tag "t") && is_none (e_transc e) then
    mkLoader (all_data st) (mkEntry (Some content) (e_segm e) (e_gloss e) (e_transl e))
  else if String.eqb line_prefix (tag "m") && is_none (e_segm e) then
    mkLoader (all_data st) (mkEntry (e_transc e) (Some content) (e_gloss e) (e_transl e))
  else if String.eqb line_prefix (tag "p") && is_none (e_gloss e) then
    if (0 <? String.length content)%nat then
      mkLoader (all_data st) (mkEntry (e_transc e) (e_segm e) (Some content) (e_transl e))
    else st
  else if String.eqb line_prefix (tag "l") && is_none (e_transl e) then
    mkLoader (all_data st ++ [IGTLine_init (e_transc e) (e_segm e) (e_gloss e) (Some content)])
             empty_entry
  else if negb (String.eqb (Py.strip line) EmptyString) then
    st
  else
    flush st.

Definition initial_loader : loader_state := mkLoader [] empty_entry.

(** The body of [load_data_file] on the lines that iterating the file
    yields. *)
Definition load_lines (lines : list string) : list IGTLine :=
  all_data (flush (fold_left load_line lines initial_loader)).

Definition LF : ascii := ascii_of_nat 10.
Definition CR : ascii := ascii_of_nat 13.

(** Text mode with the default [newline=None]: every CR LF and every lone
    CR is read as LF. *)
Fixpoint universal_newlines (s : string) : string :=
  match s with
  | EmptyString => EmptyString
  | String c r =>
      if Ascii.eqb c CR then
        match r with
        | String c' r' =>
            if Ascii.eqb c' LF then String LF (universal_newlines r')
            else String LF (universal_newlines r)
        | EmptyString => String LF EmptyString
        end
      else String c (universal_newlines r)
  end.

(** The lines of a text, each with its terminating LF; a last line without
    one is kept as it is. *)
Fixpoint file_lines (s : string) : list string :=
  match s with
  | EmptyString => []
  | String c r =>
      if Ascii.eqb c LF then String c EmptyString :: file_lines r
      else
        match file_lines r with
        | h :: t => String c h :: t
        | [] => [String c EmptyString]
        end
  end.

(** [load_data_file(path)], as a function of the text stored at [path]. *)
Definition load_data_file (content : string) : list IGTLine :=
  load_lines (file_lines (universal_newlines content)).

(** ** Vocabularies ([create_vocab], [create_gloss_vocab]) *)

Definition special_chars : list string := ["[UNK]"; "[SEP]"; "[PAD]"; "[MASK]"].

(** [word in special_chars] *)
Definition is_special (word : string) : bool :=
  existsb (String.eqb word) special_chars.

(** The order of [sorted] on strings: lexicographic on code points. *)
Definition str_le (s1 s2 : string) : Prop := String.leb s1 s2 = true.

#[global] Instance str_le_dec : RelDecision str_le.
Proof. intros s1 s2. unfold str_le. apply bool_eq_dec. Defined.

(** [sorted(l)] for a list of strings: a stable merge sort. *)
Definition sorted (l : list string) : list string := merge_sort str_le l.

(** The word as it is counted: lower-cased unless it is upper-case or
    lower-casing is switched off. *)
Definition cased (should_not_lower : bool) (word : string) : string :=
  if negb (Py.isupper word) && negb should_not_lower then Py.lower word else word.

(** One iteration of [for word in sentence] on the dictionary [all_words]. *)
Definition count_word (should_not_lower : bool)
    (all_words : gmap string Z) (word : string) : gmap string Z :=
  let word := cased should_not_lower word in
  if negb (is_special word) then
    <[word := default 0 (all_words !! word) + 1]> all_words
  else all_words.

(** One iteration of [for sentence in sentences]; an absent sentence is
    skipped. *)
Definition count_sentence (should_not_lower : bool)
    (all_words : gmap string Z) (sentence : option (list string)) : gmap string Z :=
  match sentence with
  | None => all_words
  | Some ws => fold_left (count_word should_not_lower) ws all_words
  end.

Definition count_words (should_not_lower : bool)
    (sentences : list (option (list string))) : gmap string Z :=
  fold_left (count_sentence should_not_lower) sentences ∅.

(** The words of [all_words.items()] whose count reaches the threshold.
    The dictionary is a finite map; the order in which its items are
    enumerated does not reach the result, which is sorted
    (see [sorted_Permutation]). *)
Definition frequent_words (threshold : Z) (all_words : gmap string Z) : list string :=
  (filter (fun wc : string * Z => threshold ≤ wc.2) (map_to_list all_words)).*1.

Definition create_vocab (sentences : list (option (list string)))
    (threshold : Z) (should_not_lower : bool) : list string :=
  sorted (frequent_words threshold (count_words should_not_lower sentences)).

(** The defaults [threshold=2, should_not_lower=False]. *)
Definition create_vocab_default (sentences : list (option (list string))) : list string :=
  create_vocab sentences 2 false.

(** A morphology tree is a sequence of items: a gloss tag, or a tuple of a
    group label and the sub-sequence of the group. *)
#[warnings="-register-all"]
Inductive item : Type :=
| Leaf (gloss : string)
| Group (label : string) (children : list item).

(** What one iteration of the loop of the inner [parse_tree] adds to
    [all_glosses]. *)
Fixpoint gloss_item (it : item) : list string :=
  match it with
  | Leaf gloss => [gloss]
  | Group _ children =>
      fold_left (fun all_glosses it' => all_glosses ++ gloss_item it') children []
  end.

(** The inner [parse_tree] of [create_gloss_vocab]. *)
Definition gloss_parse_tree (morphology_subtree : list item) : list string :=
  fold_left (fun all_glosses it => all_glosses ++ gloss_item it) morphology_subtree [].

Definition create_gloss_vocab (morphology : list item) : list string :=
  gloss_parse_tree morphology.

(** ** Dataset preparation ([prepare_dataset]) *)

(** Modelled from the spec: the encoder class [WordLevelTokenizer] of the
    [tokenizer] module, which is not among the sources.  It maps token
    strings to integer ids, one id per token, fails on a token it does not
    know, and exposes a pad id and a fixed maximum length. *)
Record WordLevelTokenizer : Type := mkTokenizer {
  convert_token_to_id : string → result Z;
  PAD_ID : Z;
  model_max_length : Z
}.

Definition convert_tokens_to_ids (tok : WordLevelTokenizer) (tokens : list string) : result (list Z) :=
  mapM (convert_token_to_id tok) tokens.

(** One encoded example: the dictionary returned by [process]; [labels] is
    [None] when the key is not set. *)
Record encoded : Type := mkEncoded {
  input_ids : list Z;
  attention_mask : list Z;
  labels : option (list Z)
}.

(** One row of the [Dataset] that [Dataset.from_list] builds, restricted
    to the two columns that [process] reads.  A column is [None] when the
    dataset has no such column; otherwise it holds the cell of the row,
    which is [None] when the cell holds Python's [None]. *)
Record dataset_row : Type := mkDatasetRow {
  col_glosses : option (option (list string));
  col_morphemes : option (option (list string))
}.

(** [Dataset.from_list(mapping)] of the [datasets] library, which builds
    [{k: [r.get(k) for r in mapping] for k in mapping[0]}]: the columns are
    the keys of the first dictionary, a dictionary without one of these
    keys gets [None] in that column, and a key that the first dictionary
    does not have is dropped.  An empty list gives an empty dataset. *)
Definition from_list_row (first r : row) : dataset_row :=
  mkDatasetRow
    (if is_none (row_glosses first) then None else Some (row_glosses r))
    (if is_none (row_morphemes first) then None else Some (row_morphemes r)).

Definition from_list (mapping : list row) : list dataset_row :=
  match mapping with
  | [] => []
  | first :: _ => from_list_row first <$> mapping
  end.

Section Dataset.

(** The morpheme tokenizer [morpheme_tokenize_no_punc], an external
    function from segmentation strings to morpheme lists. *)
Variable morpheme_tokenize : string → list string.

(** [IGTLine.morphemes()] *)
Definition morphemes (self : IGTLine) : option (list string) :=
  match segmentation self with
  | None => None
  | Some s => Some (morpheme_tokenize s)
  end.

(** [IGTLine.__dict__()]; the glosses are taken with
    [segmented=self.should_segment]. *)
Definition IGTLine_dict (self : IGTLine) : result row :=
  g ← match glosses self with
      | Some _ => gloss_list self (should_segment self)
      | None => Ok None
      end;
  Ok (mkRow g (morphemes self)).

Variable tokenizer : WordLevelTokenizer.
Variable label_vocab : list string.

(** The inner [process(row)] of [prepare_dataset], on a row of the
    dataset; [label_vocab] is the argument [labels].  [row['morphemes']]
    raises a [KeyError] when the dataset has no such column; a cell that
    holds [None] has no tokens to encode and no length.  ['glosses' in row]
    asks for the column, and a cell of that column that holds [None]
    cannot be iterated over. *)
Definition process (r : dataset_row) : result encoded :=
  ms ← match col_morphemes r with
       | None => Raise KeyError
       | Some None => Raise TypeError
       | Some (Some ms) => Ok ms
       end;
  source_enc ← convert_tokens_to_ids tokenizer ms;
  let initial_length := Z.of_nat (length source_enc) in
  let source_enc :=
    source_enc ++ Py.replicate (PAD_ID tokenizer) (model_max_length tokenizer - initial_length) in
  let attention_mask :=
    Py.replicate 1 initial_length
    ++ Py.replicate 0 (model_max_length tokenizer - initial_length) in
  match col_glosses r with
  | Some cell =>
      gl ← match cell with
           | Some gl => Ok gl
           | None => Raise TypeError
           end;
      output_enc ← mapM (Py.index label_vocab) gl;
      let output_enc :=
        output_enc
        ++ Py.replicate (-100) (model_max_length tokenizer - Z.of_nat (length output_enc)) in
      Ok (mkEncoded source_enc attention_mask (Some output_enc))
  | None =>
      Ok (mkEncoded source_enc attention_mask None)
  end.

(** [prepare_dataset(data, tokenizer, labels, device)]: the dictionaries of
    all lines are built first, [Dataset.from_list] lays them out in the
    columns of the first one, and [Dataset.map] sends each row of the
    dataset through [process], in order. *)
Definition prepare_dataset (data : list IGTLine) : result (list encoded) :=
  mapping ← mapM IGTLine_dict data;
  mapM process (from_list mapping).

End Dataset.

(** ** The hierarchy matrix ([TaxonomicLossModel.get_hierarchy_matrix]) *)

(** The array [matrix]: one row per tag, one column per level.  Its cells
    are floats that only ever hold small whole numbers, which [Z] carries
    exactly. *)
Abbreviation matrix := (list (list Z)) (only parsing).

(** [np.zeros((num_tags, max_depth))] *)
Definition zeros (num_tags max_depth : nat) : matrix :=
  List.repeat (List.repeat 0 max_depth) num_tags.

(** [matrix[i]] *)
Definition get_row (m : matrix) (i : nat) : result (list Z) :=
  match m !! i with
  | Some r => Ok r
  | None => Raise IndexError
  end.

(** [matrix[i][j]] *)
Definition get_cell (m : matrix) (i j : nat) : result Z :=
  r ← get_row m i;
  match r !! j with
  | Some v => Ok v
  | None => Raise IndexError
  end.

(** [matrix[i] = r], for a row [r] of the width of the matrix. *)
Definition set_row (m : matrix) (i : nat) (r : list Z) : result matrix :=
  if (i <? length m)%nat then Ok (<[i := r]> m) else Raise IndexError.

(** [row[:len(group_prefix)] = group_prefix].  The slice has the length of
    the prefix when the row is long enough; a longer prefix of length 1 is
    broadcast onto the (empty) slice, any other one is refused. *)
Definition assign_prefix (r group_prefix : list Z) : result (list Z) :=
  let k := length group_prefix in
  if (k <=? length r)%nat then Ok (group_prefix ++ drop k r)
  else if (k =? 1)%nat then Ok r
  else Raise ValueError.

(** The two assignments of the leaf branch, at a tag [start_tag] that is
    not 0. *)
Definition hm_leaf (group_prefix : list Z) (start_tag : nat) (m : matrix) : result matrix :=
  prev ← get_row m (start_tag - 1);
  m ← set_row m start_tag (List.map (fun v => v + 1) prev);
  r ← get_row m start_tag;
  r ← assign_prefix r group_prefix;
  set_row m start_tag r.

(** The body of the loop of the inner [parse_tree] below its
    [start_tag == 0] test: the tuple branch and the leaf branch.  The
    result is the new [start_tag] and the updated matrix. *)
Fixpoint hm_item (it : item) (group_prefix : list Z) (start_tag : nat) (m : matrix)
    {struct it} : result (nat * matrix) :=
  match it with
  | Group _ children =>
      v ← get_cell m (start_tag - 1) (length group_prefix);
      (fix loop (tree : list item) (start_tag : nat) (m : matrix)
           {struct tree} : result (nat * matrix) :=
         match tree with
         | [] => Ok (start_tag, m)
         | x :: rest =>
             if (start_tag =? 0)%nat then loop rest 1%nat m
             else
               sm ← hm_item x (group_prefix ++ [v + 1]) start_tag m;
               loop rest (fst sm) (snd sm)
         end) children start_tag m
  | Leaf _ =>
      m ← hm_leaf group_prefix start_tag m;
      Ok (S start_tag, m)
  end.

(** The inner [parse_tree(tree, group_prefix, start_tag)]; the matrix it
    shares with its caller is threaded through. *)
Fixpoint hm_parse_tree (tree : list item) (group_prefix : list Z) (start_tag : nat)
    (m : matrix) {struct tree} : result (nat * matrix) :=
  match tree with
  | [] => Ok (start_tag, m)
  | x :: rest =>
      if (start_tag =? 0)%nat then hm_parse_tree rest group_prefix 1%nat m
      else
        sm ← hm_item x group_prefix start_tag m;
        hm_parse_tree rest group_prefix (fst sm) (snd sm)
  end.

Definition get_hierarchy_matrix (hierarchy_tree : list item) (num_tags max_depth : nat)
    : result matrix :=
  sm ← hm_parse_tree hierarchy_tree [] 0%nat (zeros num_tags max_depth);
  Ok (snd sm).

(** ** Label tensors, [taxonomic_loss] and [forward] *)

(** Tensors are objects with identity: a tensor value is a reference into a
    store of storages, and a view of a tensor is the same reference.  Only
    integer label tensors are kept in the store, flattened and
    contiguous. *)
Inductive device : Set :=
| Cpu
| Cuda (index : nat).

#[global] Instance device_eq_dec : EqDecision device.
Proof. solve_decision. Defined.

Record storage : Type := mkStorage {
  st_device : device;
  st_data : list Z
}.

Abbreviation loc := nat (only parsing).

Abbreviation heap := (gmap nat storage) (only parsing).

(** [labels[labels == -100] = 66] on the data of one storage. *)
Definition relabel (data : list Z) : list Z :=
  List.map (fun v => if v =? -100 then 66 else v) data.

(** [t.to(d)]: the tensor itself when it already lives on [d], a copy on
    [d] in a new storage otherwise. *)
Definition tensor_to (h : heap) (t : loc) (d : device) : option (heap * loc) :=
  match h !! t with
  | Some s =>
      if decide (st_device s = d) then Some (h, t)
      else
        let t' := fresh (dom h) in
        Some (<[t' := mkStorage d (st_data s)]> h, t')
  | None => None
  end.

(** [t.view(-1)]: the same storage, seen flat. *)
Definition tensor_view_flat (t : loc) : loc := t.

Section Loss.

(** The scalar tensors that carry a loss, and their [+=]. *)
Variable Loss : Type.
Variable loss_add : Loss → Loss → Loss.

(** Lines 71 to 81 of [taxonomic_loss] for one level: grouping the rows
    of the hierarchy matrix, summing the logits of each group, looking up
    the group labels and taking the cross-entropy.  This is floating
    point code of pandas and torch; it is a function of the level and of
    the label data, the logits and the hierarchy matrix being fixed, and
    it may raise. *)
Variable level_loss : nat → list Z → result Loss.

(** One iteration of [for level in range(5)]. *)
Definition loss_step (data : list Z) (all_loss : result (option Loss)) (level : nat)
    : result (option Loss) :=
  acc ← all_loss;
  l ← level_loss level data;
  match acc with
  | Some a => Ok (Some (loss_add a l))
  | None => Ok (Some l)
  end.

(** [taxonomic_loss(logits, labels)]: the store after the call and the
    value returned.  The first statement rewrites the storage of
    [labels]; it has happened whatever the rest of the body does.  A
    reference that is not in the store stands for a value that is not a
    tensor. *)
Definition taxonomic_loss (h : heap) (labels : loc) : heap * result (option Loss) :=
  let h' := alter (fun s => mkStorage (st_device s) (relabel (st_data s))) labels h in
  match h' !! labels with
  | Some s => (h', fold_left (loss_step (st_data s)) (seq 0 5) (Ok None))
  | None => (h', Raise TypeError)
  end.

(** The part of [forward] that follows the computation of the logits,
    which live on [logits_device]: lines 124 to 127. *)
Definition forward (h : heap) (logits_device : device) (labels : option loc)
    : heap * result (option Loss) :=
  match labels with
  | None => (h, Ok None)
  | Some l =>
      match tensor_to h l logits_device with
      | Some (h1, l1) => taxonomic_loss h1 (tensor_view_flat l1)
      | None => (h, Raise TypeError)
      end
  end.

End Loss.

Arguments taxonomic_loss {Loss}.
Arguments forward {Loss}.
Arguments loss_step {Loss}.

(** ** Vocabulary of the statements *)

(** The three content slots of a pending record. *)
Definition nothing_pending (e : entry) : bool :=
  is_none (e_transc e) && is_none (e_segm e) && is_none (e_gloss e).

(** The words of the sentences that are present, in order. *)
Definition all_tokens (sentences : list (option (list string))) : list string :=
  concat (default [] <$> sentences).

(** The tokens that are counted: cased, and not special. *)
Definition counted (should_not_lower : bool) (ws : list string) : list string :=
  filter (fun w => is_special w = false) (cased should_not_lower <$> ws).

(** The casing of a token in the words of the specification: the token
    is lower-cased unless it is fully upper-case or lower-casing is
    switched off. *)
Definition spec_cased (should_not_lower : bool) (word : string) : string :=
  if should_not_lower then word
  else if Py.isupper word then word
  else Py.lower word.

(** The tokens that the specification counts: each token in its casing,
    the four special tokens left out. *)
Definition spec_counted (should_not_lower : bool) (ws : list string) : list string :=
  filter (fun w => w ∉ special_chars) (spec_cased should_not_lower <$> ws).

(** The number of occurrences of [w] in [ws]. *)
Definition occurrences (w : string) (ws : list string) : Z :=
  Z.of_nat (length (filter (w =.) ws)).

(** A dictionary entry after [n] more occurrences. *)
Definition add_occ (o : option Z) (n : Z) : option Z :=
  if n =? 0 then o else Some (default 0 o + n).

(** Either every line has glosses or no line has any: the dictionaries of
    the lines then all have the keys of the first one. *)
Definition uniform_glosses (data : list IGTLine) : Prop :=
  Forall (fun line => glosses line = None) data
  ∨ Forall (fun line => glosses line ≠ None) data.

Section DatasetShapes.

Variable morpheme_tokenize : string → list string.
Variable tokenizer : WordLevelTokenizer.
Variable label_vocab : list string.

(** What makes a line encodable: its dictionary can be built, it has
    morphemes, the encoder knows each of them, and each of its glosses,
    if it has any, is in the label vocabulary. *)
Definition encodable (line : IGTLine) : Prop :=
  ∃ r ms,
    IGTLine_dict morpheme_tokenize line = Ok r
    ∧ row_morphemes r = Some ms
    ∧ Forall (fun m => ∃ i, convert_token_to_id tokenizer m = Ok i) ms
    ∧ ∀ gl, row_glosses r = Some gl → Forall (fun g => g ∈ label_vocab) gl.

(** The shape of one encoded example, for a maximum length [n]: the line
    has morphemes, and if they are at most [n] then ids and mask have
    length [n] and the mask is one 1 per morpheme, then 0s. *)
Definition fixed_shape (n : nat) (line : IGTLine) (out : encoded) : Prop :=
  ∃ ms,
    morphemes morpheme_tokenize line = Some ms
    ∧ ((length ms ≤ n)%nat →
       length (input_ids out) = n
       ∧ length (attention_mask out) = n
       ∧ attention_mask out = List.repeat 1 (length ms) ++ List.repeat 0 (n - length ms)).

(** The labels of one encoded example in a dataset whose first line is
    [first].  Without glosses on the first line there are no labels.  With
    glosses on the first line the line has a gloss list, and the labels are
    the indices of the glosses in the label vocabulary, all valid, followed
    by as many -100 as the gloss list is short of the maximum length. *)
Definition labels_padded (first line : IGTLine) (out : encoded) : Prop :=
  (glosses first = None → labels out = None)
  ∧ (glosses first ≠ None →
     ∃ gl enc ls,
       gloss_list line (should_segment line) = Ok (Some gl)
       ∧ Forall2 (fun g v => Py.index label_vocab g = Ok v) gl enc
       ∧ Forall (fun v => 0 ≤ v < Z.of_nat (length label_vocab)) enc
       ∧ labels out = Some ls
       ∧ ls = enc ++ List.repeat (-100)
                       (Z.to_nat (model_max_length tokenizer - Z.of_nat (length gl)))
       ∧ length ls = Z.to_nat (Z.max (Z.of_nat (length gl)) (model_max_length tokenizer))
       ∧ (∀ i : nat, (length gl ≤ i < length ls)%nat → ls !! i = Some (-100))
       ∧ ∀ (i : nat) (v : Z), (length gl ≤ i)%nat → ls !! i = Some v →
           v = -100 ∧ ¬ (0 ≤ v < Z.of_nat (length label_vocab))).

End DatasetShapes.

(** Induction on items together with their sub-sequences. *)
Fixpoint item_tree_ind (P : item → Prop) (Q : list item → Prop)
    (Hleaf : ∀ gloss, P (Leaf gloss))
    (Hgroup : ∀ label children, Q children → P (Group label children))
    (Hnil : Q [])
    (Hcons : ∀ x rest, P x → Q rest → Q (x :: rest))
    (it : item) {struct it} : P it :=
  match it with
  | Leaf gloss => Hleaf gloss
  | Group label children =>
      Hgroup label children
        ((fix go (l : list item) : Q l :=
            match l with
            | [] => Hnil
            | x :: rest =>
                Hcons x rest (item_tree_ind P Q Hleaf Hgroup Hnil Hcons x) (go rest)
            end) children)
  end.

(** ** Sample inputs *)

(** The four-line block of the specification, written with its line
    ends. *)
Definition example_block : string :=
  String.concat (String LF EmptyString)
    [String backslash "t A B"; String backslash "m A-B";
     String backslash "p G1 G2"; String backslash "l translation"; ""].

(** Three tagged lines of one record, with no translation line. *)
Definition blank_line_sample : list string :=
  [String backslash "t A B" +:+ String LF EmptyString;
   String backslash "m A-B" +:+ String LF EmptyString;
   String backslash "p G1 G2" +:+ String LF EmptyString].

(** A small instance: an encoder that numbers a token by its length, a
    whitespace tokenizer in place of the morpheme tokenizer, and the record
    of the four-line block. *)
Definition sample_tokenizer : WordLevelTokenizer :=
  mkTokenizer (fun token => Ok (Z.of_nat (String.length token))) 0 64.

Definition sample_morpheme_tokenize (s : string) : list string := Py.split s.

Definition sample_labels : list string := ["G1"; "G2"; "[SEP]"].

Definition sample_line : IGTLine :=
  IGTLine_init (Some "A B") (Some "A B") (Some "G1 G2") (Some "translation").

(** A line without glosses, and a label vocabulary that lacks a gloss of
    the sample line. *)
Definition unglossed_line : IGTLine :=
  IGTLine_init (Some "A B") (Some "A B") None None.

Definition short_labels : list string := ["G1"; "[SEP]"].

(** A tree that starts with a group. *)
Definition group_first_tree : list item :=
  [Group "A" [Leaf "x"; Leaf "y"]; Leaf "z"].

(** A tree with one group between two leaves. *)
Definition sample_tree : list item :=
  [Leaf "a"; Group "G" [Leaf "b"; Leaf "c"]; Leaf "d"].

(** A store with one labels tensor on the processor. *)
Definition sample_heap : gmap nat storage := {[ 0%nat := mkStorage Cpu [-100; 3; -100] ]}.

(** ** Vocabulary of the further statements *)

(** A field that is present holds a string without outer whitespace. *)
Definition stripped (o : option string) : Prop :=
  ∀ x, o = Some x → Py.strip x = x.

(** What holds of every record that the loader emits. *)
Definition well_loaded (r : IGTLine) : Prop :=
  is_none (transcription r) && is_none (segmentation r)
    && is_none (glosses r) && is_none (translation r) = false
  ∧ glosses r ≠ Some EmptyString
  ∧ stripped (transcription r)
  ∧ stripped (segmentation r)
  ∧ stripped (glosses r)
  ∧ stripped (translation r)
  ∧ should_segment r = true.

(** The records in sight after some lines: those emitted, and one more if
    a record is pending. *)
Definition records_in_sight (st : loader_state) : nat :=
  (length (all_data st) + (if entry_is_empty (current_entry st) then 0 else 1))%nat.

(** The invariant of the loop of the loader. *)
Definition loader_ok (st : loader_state) : Prop :=
  Forall well_loaded (all_data st)
  ∧ e_gloss (current_entry st) ≠ Some EmptyString
  ∧ stripped (e_transc (current_entry st))
  ∧ stripped (e_segm (current_entry st))
  ∧ stripped (e_gloss (current_entry st))
  ∧ e_transl (current_entry st) = None.

(** A character that ends up in a gloss tag: neither whitespace nor a
    hyphen. *)
Definition tag_char (c : ascii) : bool :=
  negb (Py.isspace c) && negb (Ascii.eqb c "-"%char).

(** A line with the given glosses and nothing else. *)
Definition gloss_line (g : string) (flag : bool) : IGTLine :=
  mkIGTLine None None (Some g) None flag.

Section DatasetFurther.

Variable morpheme_tokenize : string → list string.
Variable tokenizer : WordLevelTokenizer.
Variable label_vocab : list string.

(** Lengths of one encoded example: nothing is cut off. *)
Definition untruncated (line : IGTLine) (out : encoded) : Prop :=
  ∃ ms,
    morphemes morpheme_tokenize line = Some ms
    ∧ length (input_ids out)
      = Z.to_nat (Z.max (Z.of_nat (length ms)) (model_max_length tokenizer))
    ∧ length (attention_mask out) = length (input_ids out)
    ∧ (model_max_length tokenizer < Z.of_nat (length ms) →
       attention_mask out = List.repeat 1 (length ms)).

(** Position by position: the mask is 1 on the morphemes and 0 on the
    padding, the ids are those of the morphemes, then the pad id. *)
Definition mask_matches_ids (line : IGTLine) (out : encoded) : Prop :=
  ∃ ms,
    morphemes morpheme_tokenize line = Some ms
    ∧ ∀ i : nat,
        (attention_mask out !! i = Some 1 ↔ (i < length ms)%nat)
        ∧ (attention_mask out !! i = Some 0 →
           input_ids out !! i = Some (PAD_ID tokenizer))
        ∧ ∀ m, ms !! i = Some m →
               ∃ id, convert_token_to_id tokenizer m = Ok id
                     ∧ input_ids out !! i = Some id.

(** The labels decode back to the glosses: each label is the first
    position of its gloss in the label vocabulary. *)
Definition labels_decode (line : IGTLine) (out : encoded) : Prop :=
  ∀ g, glosses line = Some g →
    ∃ gl ls,
      gloss_list line (should_segment line) = Ok (Some gl)
      ∧ labels out = Some ls
      ∧ ∀ (i : nat) (x : string), gl !! i = Some x →
          ∃ v, ls !! i = Some v
               ∧ 0 ≤ v
               ∧ label_vocab !! Z.to_nat v = Some x
               ∧ ∀ j : nat, (j < Z.to_nat v)%nat → label_vocab !! j ≠ Some x.

End DatasetFurther.

(** The sample encoder with a maximum length of 1, and a record without
    segmentation. *)
Definition short_tokenizer : WordLevelTokenizer :=
  mkTokenizer (fun token => Ok (Z.of_nat (String.length token))) 0 1.

Definition unsegmented_line : IGTLine :=
  IGTLine_init (Some "A B") None (Some "G1 G2") None.

(** One step between two consecutive rows of the matrix: every cell stays
    or grows by one. *)
Definition row_step (a b : list Z) : Prop :=
  Forall2 (fun x y => y = x ∨ y = x + 1) a b.

(** The state of the traversal of [get_hierarchy_matrix] at a tag
    [start_tag] that is not 0, for a matrix of width [w]: every row has
    width [w], row 0 holds zeros, each row below [start_tag] is one step
    from the row before it, the rows from [start_tag] on still hold zeros,
    and the group prefix is one step from the start of the last row
    written. *)
Definition hm_inv (w : nat) (group_prefix : list Z) (start_tag : nat)
    (m : list (list Z)) : Prop :=
  (1 ≤ start_tag)%nat
  ∧ Forall (fun r => length r = w) m
  ∧ (∀ r, m !! 0%nat = Some r → r = List.repeat 0 w)
  ∧ (∀ i a b, (S i < start_tag)%nat → m !! i = Some a → m !! S i = Some b → row_step a b)
  ∧ (∀ i r, (start_tag ≤ i)%nat → m !! i = Some r → r = List.repeat 0 w)
  ∧ ∃ prev, m !! (start_tag - 1)%nat = Some prev
            ∧ (length group_prefix ≤ w)%nat
            ∧ row_step (take (length group_prefix) prev) group_prefix.

(** The places of the leaves of a traversal that starts at the tag
    [start_tag] inside groups entered at the tags [entries] (outermost
    first) and gives each leaf the next tag: for each leaf, in order, its
    tag and the tags at which the groups around it were entered. *)
Fixpoint leaf_places_item (it : item) (entries : list nat) (start_tag : nat)
    {struct it} : list (nat * list nat) :=
  match it with
  | Leaf _ => [(start_tag, entries)]
  | Group _ children =>
      (fix go (tree : list item) (s : nat) {struct tree} : list (nat * list nat) :=
         match tree with
         | [] => []
         | x :: rest =>
             leaf_places_item x (entries ++ [start_tag]) s
             ++ go rest (s + length (gloss_item x))%nat
         end) children start_tag
  end.

Fixpoint leaf_places (tree : list item) (entries : list nat) (start_tag : nat)
    {struct tree} : list (nat * list nat) :=
  match tree with
  | [] => []
  | x :: rest =>
      leaf_places_item x entries start_tag
      ++ leaf_places rest entries (start_tag + length (gloss_item x))%nat
  end.

(** The cell of the group prefix at level [j] for a group entered at the
    tag [e]: one more than the cell of the row before [e] at that level. *)
Definition prefix_cell (m : list (list Z)) (j e : nat) : Z :=
  default 0 (m !! (e - 1)%nat ≫= (fun r => r !! j)) + 1.

(** The row of a leaf with tag [s] inside groups entered at [entries] is
    assigned from its predecessor row and its group prefix: it is the
    group prefix, one cell per group around the leaf, followed by the
    remaining cells of the row before it, each plus one. *)
Definition leaf_row (m : list (list Z)) (s : nat) (entries : list nat) : Prop :=
  ∃ prev,
    m !! (s - 1)%nat = Some prev
    ∧ m !! s = Some (imap (prefix_cell m) entries
                     ++ drop (length entries) ((fun v => v + 1) <$> prev)).

(** The column [level] of a matrix, as [DataFrame.groupby(by=level)] sees
    it. *)
Definition column (m : list (list Z)) (level : nat) : list Z :=
  omap (fun r => r !! level) m.

(** The keys of a grouping: the distinct values, in increasing order. *)
Definition group_keys (col : list Z) : list Z :=
  merge_sort Z.le (remove_dups col).

(** The row positions that hold the key [k]. *)
Definition group_of (col : list Z) (k : Z) : list nat :=
  filter (fun i => col !! i = Some k) (seq 0 (length col)).

(** [list(df.groupby(by=level).groups.values())]: one list of row
    positions per key, in key order. *)
Definition groupby_groups (m : list (list Z)) (level : nat) : list (list nat) :=
  group_of (column m level) <$> group_keys (column m level).

(** An integer index into an axis of [n] entries: negative indices count
    from the end. *)
Definition np_index (n : nat) (i : Z) : result nat :=
  if (0 <=? i) && (i <? Z.of_nat n) then Ok (Z.to_nat i)
  else if (- Z.of_nat n <=? i) && (i <? 0) then Ok (Z.to_nat (i + Z.of_nat n))
  else Raise IndexError.

(** [np.vstack([hierarchy_matrix, [-100] * width])] for a matrix of width
    [w]. *)
Definition with_sentinel (w : nat) (m : list (list Z)) : list (list Z) :=
  m ++ [List.repeat (-100) w].

(** Line 77 of [taxonomic_loss]: the group label of each label, looked up
    in the matrix with its sentinel row at column [level]. *)
Definition group_labels (w : nat) (m : list (list Z)) (labels : list Z) (level : nat)
    : result (list Z) :=
  mapM (fun v => i ← np_index (S (length m)) v; get_cell (with_sentinel w m) i level) labels.

(** The group label that a valid or masked label gets when the matrix has
    room for it. *)
Definition cell_or (m : list (list Z)) (level : nat) (v : Z) : Z :=
  default 0 (m !! Z.to_nat v ≫= (fun r => r !! level)).

(** The lookup of one label of line 77. *)
Definition group_label (w : nat) (m : list (list Z)) (level : nat) (v : Z) : result Z :=
  i ← np_index (S (length m)) v; get_cell (with_sentinel w m) i level.

(** The number of groups nested around the deepest place of an item, and
    of a sequence of items. *)
Fixpoint item_depth (it : item) : nat :=
  match it with
  | Leaf _ => 0
  | Group _ children => S (list_max (List.map item_depth children))
  end.

Definition tree_depth (tree : list item) : nat :=
  list_max (List.map item_depth tree).

(** * Properties *)

(** ** [gloss_list] *)

Example gloss_list_segmented_example :
  gloss_list (IGTLine_init None None (Some "1SG-run 2SG-eat") None) true
  = Ok (Some ["1SG"; "run"; "[SEP]"; "2SG"; "eat"]).
Proof. reflexivity. Qed.

Example gloss_list_flat_example :
  gloss_list (IGTLine_init None None (Some "1SG-run 2SG-eat") None) false
  = Ok (Some ["1SG-run"; "2SG-eat"]).
Proof. reflexivity. Qed.

(** A gloss line made of hyphens only leaves nothing to reduce. *)
Example gloss_list_hyphen_only :
  gloss_list (IGTLine_init None None (Some "-") None) true = Raise TypeError.
Proof. reflexivity. Qed.

(** C10.  For every IGTLine whose [glosses] field is absent, whatever its
    other fields, [gloss_list] returns the empty list and not the absent
    value, for both values of [segmented], and it does not raise; a caller
    iterating the result sees zero items. *)
Theorem gloss_list_absent_glosses :
  ∀ (t m l : option string) (flag segmented : bool),
    let self := mkIGTLine t m None l flag in
    gloss_list self segmented = Ok (Some [])
    ∧ gloss_list self segmented ≠ Ok None
    ∧ gloss_list self segmented ≠ Raise TypeError.
Proof.
  intros t m l flag segmented self. unfold gloss_list, self; simpl.
  split; [reflexivity|]. split; discriminate.
Qed.

(** ** [create_gloss_vocab] *)

Lemma fold_left_app_acc {A B : Type} (f : A → list B) (l : list A) (acc : list B) :
  fold_left (fun a x => a ++ f x) l acc = acc ++ fold_left (fun a x => a ++ f x) l [].
Proof.
  revert acc. induction l as [|x l IH]; intros acc; simpl.
  - by rewrite app_nil_r.
  - rewrite IH. rewrite (IH (f x)). by rewrite app_assoc.
Qed.

Lemma gloss_parse_tree_cons (it : item) (t : list item) :
  gloss_parse_tree (it :: t) = gloss_item it ++ gloss_parse_tree t.
Proof. unfold gloss_parse_tree. simpl. apply fold_left_app_acc. Qed.

Lemma gloss_item_group (label : string) (children : list item) :
  gloss_item (Group label children) = gloss_parse_tree children.
Proof. reflexivity. Qed.

(** C8.  [create_gloss_vocab] lists the leaf gloss tags of the tree in
    depth-first order: a leaf contributes its tag, a group contributes the
    flattening of its sub-sequence, in sequence order.  On the tree
    [[("A", ["x","y"]), "z"]] the result is [["x","y","z"]].  The result is
    a function of the tree alone, so two calls on one tree agree. *)
Theorem create_gloss_vocab_depth_first :
  create_gloss_vocab [Group "A" [Leaf "x"; Leaf "y"]; Leaf "z"] = ["x"; "y"; "z"]
  ∧ create_gloss_vocab [] = []
  ∧ (∀ gloss t, create_gloss_vocab (Leaf gloss :: t) = gloss :: create_gloss_vocab t)
  ∧ (∀ label children t,
       create_gloss_vocab (Group label children :: t)
       = create_gloss_vocab children ++ create_gloss_vocab t).
Proof.
  split; [reflexivity|]. split; [reflexivity|].
  unfold create_gloss_vocab. split.
  - intros gloss t. by rewrite gloss_parse_tree_cons.
  - intros label children t. by rewrite gloss_parse_tree_cons, gloss_item_group.
Qed.

(** ** [load_data_file] *)

Lemma rstrip_not_space (c : ascii) (r : string) :
  Py.isspace c = false → Py.rstrip (String c r) ≠ EmptyString.
Proof. intros Hc. simpl. destruct (Py.rstrip r); rewrite ?Hc; discriminate. Qed.

(** A line that strips to the empty string is empty or starts with a
    whitespace character. *)
Lemma blank_line_head (line : string) :
  Py.strip line = EmptyString →
  line = EmptyString ∨ ∃ c r, line = String c r ∧ Py.isspace c = true.
Proof.
  destruct line as [|c r]; [by left|]. intros H. right. exists c, r. split; [done|].
  destruct (Py.isspace c) eqn:Hc; [done|]. exfalso.
  unfold Py.strip in H. simpl in H. rewrite Hc in H.
  by apply (rstrip_not_space c r Hc).
Qed.

Lemma blank_line_no_tag (line : string) (c : ascii) :
  Py.strip line = EmptyString → String.eqb (Py.slice_to 2 line) (tag c) = false.
Proof.
  intros H. destruct (blank_line_head line H) as [-> | (a & r & -> & Ha)]; [done|].
  apply String.eqb_neq. intros Heq. simpl in Heq. unfold tag in Heq.
  injection Heq as -> _. discriminate Ha.
Qed.

(** On a blank line the loop body reduces to the flush of the pending
    record. *)
Lemma load_line_blank (st : loader_state) (line : string) :
  Py.strip line = EmptyString → load_line st line = flush st.
Proof.
  intros H. unfold load_line. rewrite !blank_line_no_tag by done. simpl.
  rewrite H. reflexivity.
Qed.

Lemma flush_pending (st : loader_state) : current_entry (flush st) = empty_entry.
Proof.
  unfold flush. destruct (entry_is_empty (current_entry st)) eqn:He; simpl; [|done].
  destruct st as [d [[?|] [?|] [?|] [?|]]]; simpl in *; try discriminate. done.
Qed.

Lemma flush_idem (st : loader_state) : flush (flush st) = flush st.
Proof.
  unfold flush at 1. by rewrite flush_pending.
Qed.

(** The translation slot of the pending record is empty between two
    iterations: the line that fills it also emits the record. *)
Lemma load_line_transl (st : loader_state) (line : string) :
  e_transl (current_entry st) = None →
  e_transl (current_entry (load_line st line)) = None.
Proof.
  intros H. unfold load_line, flush.
  repeat match goal with
         | |- context [if ?b then _ else _] => destruct b
         end; simpl; done.
Qed.

Lemma fold_load_line_transl (lines : list string) (st : loader_state) :
  e_transl (current_entry st) = None →
  e_transl (current_entry (fold_left load_line lines st)) = None.
Proof.
  revert st. induction lines as [|l lines IH]; intros st H; simpl; [done|].
  apply IH. by apply load_line_transl.
Qed.

Lemma loader_transl (lines : list string) :
  e_transl (current_entry (fold_left load_line lines initial_loader)) = None.
Proof. by apply fold_load_line_transl. Qed.

Lemma load_line_translation_tag (st : loader_state) (rest : string) :
  e_transl (current_entry st) = None →
  load_line st (String backslash (String "l" rest))
  = mkLoader
      (all_data st
       ++ [IGTLine_init (e_transc (current_entry st)) (e_segm (current_entry st))
             (e_gloss (current_entry st))
             (Some (Py.strip (Py.slice_from 3 (String backslash (String "l" rest)))))])
      empty_entry.
Proof.
  intros H. unfold load_line.
  change (Py.slice_to 2 (String backslash (String "l" rest))) with (tag "l").
  change (String.eqb (tag "l") (tag "t")) with false.
  change (String.eqb (tag "l") (tag "m")) with false.
  change (String.eqb (tag "l") (tag "p")) with false.
  change (String.eqb (tag "l") (tag "l")) with true.
  rewrite H. reflexivity.
Qed.


Lemma entry_is_empty_pending (e : entry) :
  e_transl e = None → entry_is_empty e = nothing_pending e.
Proof.
  intros H. unfold entry_is_empty, nothing_pending. rewrite H. simpl.
  by rewrite andb_true_r.
Qed.

(** C4.  After any sequence of lines, let the pending record be that of
    the loader.  A blank line (one that strips to the empty string) then
    appends exactly one record made of the pending transcription,
    segmentation and glosses with the translation absent, when one of the
    three is present, and changes nothing when none is; a second blank
    line right after it changes nothing; and at the end of the file the
    result is the data collected so far, followed by the same record when
    one of the three is present. *)
Theorem blank_line_finalization (lines : list string) (line : string) :
  Py.strip line = EmptyString →
  let st := fold_left load_line lines initial_loader in
  let e := current_entry st in
  let emitted := IGTLine_init (e_transc e) (e_segm e) (e_gloss e) None in
  load_line st line
  = (if nothing_pending e then st else mkLoader (all_data st ++ [emitted]) empty_entry)
  ∧ (∀ line', Py.strip line' = EmptyString →
              load_line (load_line st line) line' = load_line st line)
  ∧ load_lines lines
    = (if nothing_pending e then all_data st else all_data st ++ [emitted])
  ∧ translation emitted = None.
Proof.
  intros Hblank st e emitted.
  assert (He : entry_is_empty e = nothing_pending e)
    by apply entry_is_empty_pending, loader_transl.
  split; [|split; [|split]].
  - rewrite load_line_blank by done. unfold flush. fold e. rewrite He.
    by destruct (nothing_pending e).
  - intros line' Hblank'. rewrite !load_line_blank by done. apply flush_idem.
  - unfold load_lines, flush. fold st e. rewrite He.
    by destruct (nothing_pending e).
  - reflexivity.
Qed.

Lemma blank_line_finalization_witness :
  Py.strip (String LF EmptyString) = EmptyString
  ∧ load_line (fold_left load_line blank_line_sample initial_loader) (String LF EmptyString)
    = mkLoader [IGTLine_init (Some "A B") (Some "A-B") (Some "G1 G2") None] empty_entry.
Proof.
  split; [reflexivity|].
  pose proof (blank_line_finalization blank_line_sample (String LF EmptyString) eq_refl)
    as [H _].
  rewrite H. reflexivity.
Defined.

(** ** [create_vocab] *)

Section StringOrder.

Lemma ascii_compare_refl (a : ascii) : Ascii.compare a a = Eq.
Proof. unfold Ascii.compare. apply N.compare_refl. Qed.

Lemma ascii_compare_lt_trans (a b c : ascii) :
  Ascii.compare a b = Lt → Ascii.compare b c = Lt → Ascii.compare a c = Lt.
Proof.
  unfold Ascii.compare. rewrite !N.compare_lt_iff. apply N.lt_trans.
Qed.

Lemma string_compare_lt_trans (s1 s2 s3 : string) :
  String.compare s1 s2 = Lt → String.compare s2 s3 = Lt → String.compare s1 s3 = Lt.
Proof.
  revert s2 s3. induction s1 as [|a s1 IH]; intros [|b s2] [|c s3]; simpl;
    try discriminate; try done.
  destruct (Ascii.compare a b) eqn:Hab; try discriminate;
    destruct (Ascii.compare b c) eqn:Hbc; try discriminate; intros H1 H2.
  - apply Ascii.compare_eq_iff in Hab as ->. apply Ascii.compare_eq_iff in Hbc as ->.
    rewrite ascii_compare_refl. by eapply IH.
  - apply Ascii.compare_eq_iff in Hab as ->. by rewrite Hbc.
  - apply Ascii.compare_eq_iff in Hbc as ->. by rewrite Hab.
  - by rewrite (ascii_compare_lt_trans a b c).
Qed.

Lemma str_le_compare (s1 s2 : string) :
  str_le s1 s2 ↔ String.compare s1 s2 = Lt ∨ s1 = s2.
Proof.
  unfold str_le, String.leb. split.
  - destruct (String.compare s1 s2) eqn:H; try discriminate; intros _.
    + right. by apply String.compare_eq_iff.
    + by left.
  - intros [-> | ->]; [done|].
    assert (String.compare s2 s2 = Eq) as ->; [|done].
    induction s2 as [|a s IH]; simpl; [done|]. by rewrite ascii_compare_refl.
Qed.

#[global] Instance str_le_total : Total str_le.
Proof. intros s1 s2. apply String.leb_total. Qed.

#[global] Instance str_le_antisym : AntiSymm (=) str_le.
Proof. intros s1 s2. apply String.leb_antisym. Qed.

#[global] Instance str_le_trans : Transitive str_le.
Proof.
  intros s1 s2 s3. rewrite !str_le_compare.
  intros [H1 | ->] [H2 | ->]; eauto using string_compare_lt_trans.
Qed.

End StringOrder.

(** [sorted] gives one result on all orderings of the same words. *)
Lemma sorted_Permutation (l1 l2 : list string) : l1 ≡ₚ l2 → sorted l1 = sorted l2.
Proof.
  intros H. unfold sorted. apply (Sorted_unique str_le).
  - apply Sorted_merge_sort, _.
  - apply Sorted_merge_sort, _.
  - by rewrite !merge_sort_Permutation.
Qed.

Lemma occurrences_nonneg (w : string) (ws : list string) : 0 ≤ occurrences w ws.
Proof. unfold occurrences. lia. Qed.

Lemma occurrences_app (w : string) (l1 l2 : list string) :
  occurrences w (l1 ++ l2) = occurrences w l1 + occurrences w l2.
Proof. unfold occurrences. rewrite filter_app, length_app. lia. Qed.

Lemma occurrences_cons (w x : string) (l : list string) :
  occurrences w (x :: l) = (if decide (w = x) then 1 else 0) + occurrences w l.
Proof.
  unfold occurrences. rewrite filter_cons. destruct (decide (w = x)); simpl; lia.
Qed.

Lemma occurrences_pos_elem (w : string) (ws : list string) :
  occurrences w ws ≠ 0 ↔ w ∈ ws.
Proof.
  unfold occurrences. split.
  - intros H. destruct (filter (w =.) ws) as [|x l] eqn:Hf; [done|].
    assert (x ∈ filter (w =.) ws) as Hx by (rewrite Hf; left).
    apply list_elem_of_filter in Hx as [-> Hx]. done.
  - intros Hw Hz.
    assert (w ∈ filter (w =.) ws) as Hx by (by apply list_elem_of_filter).
    destruct (filter (w =.) ws); [inversion Hx | simpl in Hz; lia].
Qed.

Lemma occurrences_Permutation (w : string) (l1 l2 : list string) :
  l1 ≡ₚ l2 → occurrences w l1 = occurrences w l2.
Proof. intros H. unfold occurrences. by rewrite H. Qed.

Lemma add_occ_add (o : option Z) (a b : Z) :
  0 ≤ a → 0 ≤ b → add_occ (add_occ o a) b = add_occ o (a + b).
Proof.
  intros Ha Hb. unfold add_occ.
  destruct (Z.eqb_spec a 0), (Z.eqb_spec b 0), (Z.eqb_spec (a + b) 0);
    simpl; try lia; try done; f_equal; lia.
Qed.

Lemma counted_cons (snl : bool) (x : string) (ws : list string) :
  counted snl (x :: ws)
  = if is_special (cased snl x) then counted snl ws else cased snl x :: counted snl ws.
Proof.
  unfold counted. rewrite fmap_cons, filter_cons.
  destruct (is_special (cased snl x)); by case_decide.
Qed.

Lemma counted_app (snl : bool) (l1 l2 : list string) :
  counted snl (l1 ++ l2) = counted snl l1 ++ counted snl l2.
Proof. unfold counted. by rewrite fmap_app, filter_app. Qed.

(** The dictionary after the words of one sentence. *)
Lemma count_sentence_words (snl : bool) (ws : list string) (m : gmap string Z) (w : string) :
  fold_left (count_word snl) ws m !! w = add_occ (m !! w) (occurrences w (counted snl ws)).
Proof.
  revert m. induction ws as [|x ws IH]; intros m; simpl; [done|].
  rewrite IH, counted_cons. unfold count_word.
  destruct (is_special (cased snl x)) eqn:Hs; simpl; [done|].
  rewrite occurrences_cons.
  pose proof (occurrences_nonneg w (counted snl ws)) as Hn.
  unfold add_occ. destruct (decide (w = cased snl x)) as [->|Hne].
  - rewrite lookup_insert_eq.
    destruct (Z.eqb_spec (occurrences (cased snl x) (counted snl ws)) 0) as [->|?],
             (Z.eqb_spec (1 + occurrences (cased snl x) (counted snl ws)) 0);
      simpl; try lia; f_equal; lia.
  - by rewrite lookup_insert_ne.
Qed.

(** The dictionary after all sentences. *)
Lemma count_sentences_words (snl : bool) (ss : list (option (list string)))
    (m : gmap string Z) (w : string) :
  fold_left (count_sentence snl) ss m !! w
  = add_occ (m !! w) (occurrences w (counted snl (all_tokens ss))).
Proof.
  revert m. induction ss as [|s ss IH]; intros m; simpl; [done|].
  rewrite IH. unfold all_tokens. rewrite fmap_cons. simpl.
  rewrite counted_app, occurrences_app.
  rewrite <- add_occ_add by apply occurrences_nonneg. f_equal.
  destruct s as [ws|]; simpl; [apply count_sentence_words | done].
Qed.

Lemma count_words_lookup (snl : bool) (ss : list (option (list string))) (w : string) :
  count_words snl ss !! w = add_occ None (occurrences w (counted snl (all_tokens ss))).
Proof. unfold count_words. by rewrite count_sentences_words, lookup_empty. Qed.

Lemma elem_of_frequent_words (threshold : Z) (m : gmap string Z) (w : string) :
  w ∈ frequent_words threshold m ↔ ∃ c, m !! w = Some c ∧ threshold ≤ c.
Proof.
  unfold frequent_words. rewrite list_elem_of_fmap. split.
  - intros ([w' c] & -> & H). apply list_elem_of_filter in H as [Hc H].
    apply elem_of_map_to_list in H. eauto.
  - intros (c & H & Hc). exists (w, c). split; [done|].
    apply list_elem_of_filter. split; [done|]. by apply elem_of_map_to_list.
Qed.

Lemma NoDup_frequent_words (threshold : Z) (m : gmap string Z) :
  NoDup (frequent_words threshold m).
Proof.
  unfold frequent_words.
  eapply sublist_NoDup; [apply (NoDup_fst_map_to_list m)|].
  apply fmap_sublist, sublist_filter.
Qed.

Lemma elem_of_create_vocab (ss : list (option (list string))) (threshold : Z)
    (snl : bool) (w : string) :
  w ∈ create_vocab ss threshold snl
  ↔ w ∈ counted snl (all_tokens ss)
    ∧ threshold ≤ occurrences w (counted snl (all_tokens ss)).
Proof.
  unfold create_vocab, sorted. rewrite merge_sort_Permutation.
  rewrite elem_of_frequent_words. setoid_rewrite count_words_lookup.
  rewrite <- occurrences_pos_elem. unfold add_occ.
  destruct (Z.eqb_spec (occurrences w (counted snl (all_tokens ss))) 0) as [Hz|Hz].
  - split; [intros (c & ? & ?); done | intros [? _]; done].
  - split.
    + intros (c & [= <-] & Hc). simpl in Hc. split; [done | lia].
    + intros [_ Hc]. eexists. split; [done|]. simpl. lia.
Qed.

Lemma create_vocab_tokens_Permutation (ss ss' : list (option (list string)))
    (threshold : Z) (snl : bool) :
  all_tokens ss' ≡ₚ all_tokens ss →
  create_vocab ss' threshold snl = create_vocab ss threshold snl.
Proof.
  intros H. unfold create_vocab. f_equal. f_equal. apply map_eq. intros w.
  rewrite !count_words_lookup. f_equal. apply occurrences_Permutation.
  unfold counted. by rewrite H.
Qed.

Lemma all_tokens_Permutation (ss ss' : list (option (list string))) :
  ss' ≡ₚ ss → all_tokens ss' ≡ₚ all_tokens ss.
Proof. intros H. unfold all_tokens. by rewrite H. Qed.

Lemma special_not_counted (snl : bool) (ws : list string) (w : string) :
  w ∈ special_chars → w ∉ counted snl ws.
Proof.
  intros Hw Hin. unfold counted in Hin. apply list_elem_of_filter in Hin as [Hs _].
  unfold special_chars in Hw.
  repeat (apply elem_of_cons in Hw as [-> | Hw]; [discriminate Hs|]).
  inversion Hw.
Qed.

(** The tokens that the code counts are those that the specification
    counts. *)
Lemma spec_counted_counted (snl : bool) (ws : list string) :
  spec_counted snl ws = counted snl ws.
Proof.
  unfold spec_counted, counted.
  assert (spec_cased snl <$> ws = cased snl <$> ws) as ->.
  { apply list_fmap_ext. intros _ w _. unfold spec_cased, cased.
    by destruct snl, (Py.isupper w). }
  apply list_filter_iff. intros w. unfold is_special. split.
  - intros Hn. destruct (existsb (String.eqb w) special_chars) eqn:E; [|done].
    apply existsb_exists in E as (x & Hin & Hx). apply String.eqb_eq in Hx as <-.
    destruct Hn. by apply list_elem_of_In.
  - intros Hn Hin. apply list_elem_of_In in Hin.
    assert (existsb (String.eqb w) special_chars = true) as E; [|congruence].
    apply existsb_exists. exists w. split; [done | apply String.eqb_refl].
Qed.

(** C5.  For any sentences, threshold and casing switch, [create_vocab]
    returns a list that is sorted in string order and free of duplicates,
    whose members are exactly the counted tokens with at least [threshold]
    occurrences.  The counted tokens are the tokens of the present
    sentences, each lower-cased unless it is fully upper-case or
    lower-casing is switched off, with the four special tokens left out.
    No special token is counted or returned.  The result is the same for
    any rearrangement of the tokens of the input, in particular for any
    reordering of the sentences.  On [[["run","RUN"],["run","eat"]]] with
    the default threshold the result is [["run"]]; an upper-case token
    stays as it is and is counted apart, a token of mixed case is counted
    with its lower-case form, and with lower-casing switched off it is
    counted as it is. *)
Theorem create_vocab_sorted_thresholded
    (sentences : list (option (list string))) (threshold : Z) (should_not_lower : bool) :
  let out := create_vocab sentences threshold should_not_lower in
  let ws := spec_counted should_not_lower (all_tokens sentences) in
  Sorted str_le out
  ∧ NoDup out
  ∧ (∀ w, w ∈ out ↔ w ∈ ws ∧ threshold ≤ occurrences w ws)
  ∧ (∀ w, w ∈ special_chars → (w ∉ ws) ∧ (w ∉ out))
  ∧ (∀ sentences', all_tokens sentences' ≡ₚ all_tokens sentences →
                   create_vocab sentences' threshold should_not_lower = out)
  ∧ (∀ sentences', sentences' ≡ₚ sentences →
                   create_vocab sentences' threshold should_not_lower = out)
  ∧ create_vocab_default [Some ["run"; "RUN"]; Some ["run"; "eat"]] = ["run"]
  ∧ create_vocab_default [Some ["RUN"; "Run"]; None; Some ["RUN"; "run"]] = ["RUN"; "run"]
  ∧ create_vocab [Some ["Run"; "run"; "Run"]] 2 true = ["Run"]
  ∧ create_vocab_default [Some ["[PAD]"; "[PAD]"; "eat"; "eat"]] = ["eat"].
Proof.
  intros out ws. unfold ws. rewrite spec_counted_counted.
  split; [|split; [|split; [|split; [|split; [|split; [|split; [|split; [|split]]]]]]]].
  - apply Sorted_merge_sort, _.
  - unfold out, create_vocab, sorted. rewrite merge_sort_Permutation.
    apply NoDup_frequent_words.
  - intros w. apply elem_of_create_vocab.
  - intros w Hw. split; [by apply special_not_counted|].
    intros Hin. apply elem_of_create_vocab in Hin as [Hin _].
    by apply (special_not_counted should_not_lower (all_tokens sentences) w).
  - intros sentences' H. by apply create_vocab_tokens_Permutation.
  - intros sentences' H. by apply create_vocab_tokens_Permutation, all_tokens_Permutation.
  - vm_compute. reflexivity.
  - vm_compute. reflexivity.
  - vm_compute. reflexivity.
  - vm_compute. reflexivity.
Qed.

Lemma create_vocab_sorted_thresholded_witness :
  [Some ["run"; "eat"]; Some ["run"; "RUN"]] ≡ₚ [Some ["run"; "RUN"]; Some ["run"; "eat"]]
  ∧ create_vocab [Some ["run"; "eat"]; Some ["run"; "RUN"]] 2 false
    = create_vocab [Some ["run"; "RUN"]; Some ["run"; "eat"]] 2 false.
Proof.
  assert ([Some ["run"; "eat"]; Some ["run"; "RUN"]]
          ≡ₚ [Some ["run"; "RUN"]; Some ["run"; "eat"]]) as Hperm by apply perm_swap.
  split; [exact Hperm|].
  exact (proj1 (proj2 (proj2 (proj2 (proj2 (proj2
    (create_vocab_sorted_thresholded [Some ["run"; "RUN"]; Some ["run"; "eat"]] 2 false))))))
    _ Hperm).
Defined.

(** ** [prepare_dataset] *)

Lemma mapM_result_cons {A B : Type} (f : A → result B) (x : A) (l : list A) :
  mapM f (x :: l) = y ← f x; k ← mapM f l; Ok (y :: k).
Proof. reflexivity. Qed.

Lemma mapM_result_Forall2 {A B : Type} (f : A → result B) (l : list A) :
  Forall (fun x => ∃ y, f x = Ok y) l →
  ∃ ys, mapM f l = Ok ys ∧ Forall2 (fun x y => f x = Ok y) l ys.
Proof.
  induction 1 as [|x l [y Hy] _ (ys & Hys & IH)].
  - exists []. by split; [|constructor].
  - exists (y :: ys). rewrite mapM_result_cons, Hy, Hys. split; [done|].
    by constructor.
Qed.

Lemma mapM_result_inv {A B : Type} (f : A → result B) (l : list A) (ys : list B) :
  mapM f l = Ok ys → Forall2 (fun x y => f x = Ok y) l ys.
Proof.
  revert ys. induction l as [|x l IH]; intros ys.
  - intros [= <-]. constructor.
  - rewrite mapM_result_cons. destruct (f x) as [y|] eqn:Hx; simpl; [|done].
    destruct (mapM f l) as [k|]; simpl; [|done].
    intros [= <-]. constructor; [done | by apply IH].
Qed.

Lemma mapM_result_raise {A B : Type} (f : A → result B) (pre post : list A) (x : A)
    (e : exn) :
  Forall (fun y => ∃ z, f y = Ok z) pre →
  f x = Raise e →
  mapM f (pre ++ x :: post) = Raise e.
Proof.
  intros Hpre Hx. induction Hpre as [|y pre [z Hz] _ IH]; cbn [app].
  - rewrite mapM_result_cons, Hx. reflexivity.
  - rewrite mapM_result_cons, Hz, IH. reflexivity.
Qed.

Lemma index_Ok_range (l : list string) (x : string) (i : Z) :
  Py.index l x = Ok i → 0 ≤ i < Z.of_nat (length l).
Proof.
  revert i. induction l as [|y l IH]; intros i; simpl; [done|].
  destruct (String.eqb y x).
  - intros [= <-]. lia.
  - destruct (Py.index l x) as [j|e]; simpl; [|done].
    intros [= <-]. specialize (IH j eq_refl). lia.
Qed.

Lemma index_elem_of (l : list string) (x : string) :
  x ∈ l → ∃ i, Py.index l x = Ok i.
Proof.
  induction l as [|y l IH]; intros H; [inversion H|]. simpl.
  destruct (String.eqb_spec y x) as [->|Hne]; [eauto|].
  apply elem_of_cons in H as [->|H]; [done|].
  destruct (IH H) as [i ->]. simpl. eauto.
Qed.

Lemma length_replicate {A : Type} (x : A) (k : Z) :
  length (Py.replicate x k) = Z.to_nat k.
Proof. unfold Py.replicate. apply repeat_length. Qed.

Lemma replicate_lookup {A : Type} (x y : A) (k : Z) (i : nat) :
  Py.replicate x k !! i = Some y → y = x.
Proof.
  unfold Py.replicate. intros H. apply list_elem_of_lookup_2 in H.
  apply list_elem_of_In in H. by apply repeat_spec in H.
Qed.

Lemma replicate_lookup_lt {A : Type} (x : A) (k : Z) (i : nat) :
  (i < Z.to_nat k)%nat → Py.replicate x k !! i = Some x.
Proof.
  intros H. unfold Py.replicate.
  destruct (List.repeat x (Z.to_nat k) !! i) as [y|] eqn:Hy.
  - apply list_elem_of_lookup_2, list_elem_of_In, repeat_spec in Hy. by subst.
  - apply lookup_ge_None in Hy. rewrite repeat_length in Hy. lia.
Qed.

Lemma Forall2_Forall_mp {A B : Type} (P : A → Prop) (R : A → B → Prop)
    (l : list A) (k : list B) :
  Forall P l → Forall2 (fun x y => P x → R x y) l k → Forall2 R l k.
Proof.
  intros HP H. induction H as [|x y l k Hxy _ IH]; [constructor|].
  inversion HP; subst. constructor; auto.
Qed.

Lemma uniform_glosses_head (first : IGTLine) (rest : list IGTLine) :
  uniform_glosses (first :: rest) →
  Forall (fun line => glosses first = None ↔ glosses line = None) (first :: rest).
Proof.
  intros [H|H]; inversion H as [|? ? Hfirst _]; subst;
    (eapply Forall_impl; [exact H|]); intros line Hline; simpl in *; split; done.
Qed.

Section DatasetProperties.

Variable morpheme_tokenize : string → list string.
Variable tokenizer : WordLevelTokenizer.
Variable label_vocab : list string.

(** What a returned example is made of. *)
Lemma process_inv (r : dataset_row) (out : encoded) :
  process tokenizer label_vocab r = Ok out →
  ∃ ms ids,
    col_morphemes r = Some (Some ms)
    ∧ Forall2 (fun m id => convert_token_to_id tokenizer m = Ok id) ms ids
    ∧ input_ids out
      = ids ++ Py.replicate (PAD_ID tokenizer)
                 (model_max_length tokenizer - Z.of_nat (length ids))
    ∧ attention_mask out
      = Py.replicate 1 (Z.of_nat (length ids))
        ++ Py.replicate 0 (model_max_length tokenizer - Z.of_nat (length ids))
    ∧ match col_glosses r with
      | None => labels out = None
      | Some cell =>
          ∃ gl enc,
            cell = Some gl
            ∧ Forall2 (fun g v => Py.index label_vocab g = Ok v) gl enc
            ∧ labels out
              = Some (enc ++ Py.replicate (-100)
                        (model_max_length tokenizer - Z.of_nat (length enc)))
      end.
Proof.
  unfold process, convert_tokens_to_ids.
  destruct (col_morphemes r) as [[ms|]|]; simpl; [|done|done].
  destruct (mapM (convert_token_to_id tokenizer) ms) as [ids|] eqn:Hids; simpl; [|done].
  apply mapM_result_inv in Hids.
  destruct (col_glosses r) as [[gl|]|]; simpl.
  - destruct (mapM (Py.index label_vocab) gl) as [enc|] eqn:Henc; simpl; [|done].
    apply mapM_result_inv in Henc. intros [= <-]. simpl.
    exists ms, ids. repeat split; try done. by exists gl, enc.
  - done.
  - intros [= <-]. simpl. exists ms, ids. by repeat split.
Qed.

(** When [process] returns. *)
Lemma process_Ok (r : dataset_row) (ms : list string) :
  col_morphemes r = Some (Some ms) →
  Forall (fun m => ∃ i, convert_token_to_id tokenizer m = Ok i) ms →
  (∀ cell, col_glosses r = Some cell →
           ∃ gl, cell = Some gl ∧ Forall (fun g => g ∈ label_vocab) gl) →
  ∃ out, process tokenizer label_vocab r = Ok out.
Proof.
  intros Hms Hconv Hgl. unfold process, convert_tokens_to_ids. rewrite Hms. simpl.
  destruct (mapM_result_Forall2 _ _ Hconv) as (ids & Hids & _).
  rewrite Hids. simpl.
  destruct (col_glosses r) as [cell|]; [|eauto].
  destruct (Hgl cell eq_refl) as (gl & -> & Hin). simpl.
  assert (Forall (fun g => ∃ i, Py.index label_vocab g = Ok i) gl) as Hidx.
  { eapply Forall_impl; [exact Hin|]. intros g. apply index_elem_of. }
  destruct (mapM_result_Forall2 _ _ Hidx) as (enc & Henc & _).
  rewrite Henc. simpl. eauto.
Qed.

Lemma IGTLine_dict_row (line : IGTLine) (r : row) :
  IGTLine_dict morpheme_tokenize line = Ok r →
  row_morphemes r = morphemes morpheme_tokenize line
  ∧ match glosses line with
    | None => row_glosses r = None
    | Some _ =>
        ∃ gl, gloss_list line (should_segment line) = Ok (Some gl)
              ∧ row_glosses r = Some gl
    end.
Proof.
  unfold IGTLine_dict. destruct (glosses line) as [g|] eqn:Hg; simpl.
  - unfold gloss_list. rewrite Hg.
    destruct (negb (should_segment line)); simpl.
    + intros [= <-]. simpl. eauto.
    + match goal with |- context [Py.reduce ?f ?l] => destruct (Py.reduce f l) end;
        simpl; [|done].
      intros [= <-]. simpl. eauto.
  - by intros [= <-].
Qed.

(** The glosses column exists exactly when the first line has glosses. *)
Lemma from_list_row_glosses (l0 : IGTLine) (first r : row) :
  IGTLine_dict morpheme_tokenize l0 = Ok first →
  col_glosses (from_list_row first r)
  = if is_none (glosses l0) then None else Some (row_glosses r).
Proof.
  intros H. apply IGTLine_dict_row in H as [_ H]. unfold from_list_row. simpl.
  destruct (glosses l0); simpl.
  - by destruct H as (gl & _ & ->).
  - by rewrite H.
Qed.

(** The examples of a dataset that is returned: each is the dictionary of
    its line, laid out in the columns of the dictionary of the first line
    and sent through [process]. *)
Lemma prepare_dataset_inv (l0 : IGTLine) (rest : list IGTLine) (outs : list encoded) :
  prepare_dataset morpheme_tokenize tokenizer label_vocab (l0 :: rest) = Ok outs →
  ∃ first,
    IGTLine_dict morpheme_tokenize l0 = Ok first
    ∧ Forall2 (fun line out =>
                 ∃ r, IGTLine_dict morpheme_tokenize line = Ok r
                      ∧ process tokenizer label_vocab (from_list_row first r) = Ok out)
        (l0 :: rest) outs.
Proof.
  unfold prepare_dataset.
  destruct (mapM (IGTLine_dict morpheme_tokenize) (l0 :: rest)) as [mapping|] eqn:Hm;
    simpl; [|done].
  intros Hp. apply mapM_result_inv in Hm. apply mapM_result_inv in Hp.
  inversion Hm as [|? first ? mapping' Hfirst Hrest]; subst.
  exists first. split; [done|]. unfold from_list in Hp. apply Forall2_fmap_l in Hp.
  eapply Forall2_trans; [|exact Hm|exact Hp]. simpl. eauto.
Qed.

(** One line of a dataset whose lines can be encoded and have the keys of
    the first one. *)
Lemma process_from_list_Ok (l0 line : IGTLine) (first r : row) :
  encodable morpheme_tokenize tokenizer label_vocab l0 →
  encodable morpheme_tokenize tokenizer label_vocab line →
  (glosses l0 = None ↔ glosses line = None) →
  IGTLine_dict morpheme_tokenize l0 = Ok first →
  IGTLine_dict morpheme_tokenize line = Ok r →
  ∃ out, process tokenizer label_vocab (from_list_row first r) = Ok out.
Proof.
  intros (first' & ms0 & Hfirst' & Hms0 & _) (r' & ms & Hr' & Hms & Hconv & Hgl)
    Hiff Hfirst Hr.
  rewrite Hfirst in Hfirst'. injection Hfirst' as <-.
  rewrite Hr in Hr'. injection Hr' as <-.
  apply (process_Ok _ ms).
  - unfold from_list_row. simpl. by rewrite Hms0, Hms.
  - done.
  - intros cell. rewrite (from_list_row_glosses l0) by done.
    destruct (glosses l0) as [g0|] eqn:Hg0; simpl; [|done].
    intros [= <-]. destruct (IGTLine_dict_row line r Hr) as [_ Hrow].
    destruct (glosses line) as [g|]; [|discriminate (proj2 Hiff eq_refl)].
    destruct Hrow as (gl & _ & Hrow). exists gl. split; [done | by apply Hgl].
Qed.

(** When [prepare_dataset] returns. *)
Lemma prepare_dataset_returns (data : list IGTLine) :
  Forall (encodable morpheme_tokenize tokenizer label_vocab) data →
  uniform_glosses data →
  ∃ outs, prepare_dataset morpheme_tokenize tokenizer label_vocab data = Ok outs.
Proof.
  intros Henc Huni. destruct data as [|l0 rest]; [by exists []|].
  apply uniform_glosses_head in Huni.
  assert (Forall (fun l => ∃ r, IGTLine_dict morpheme_tokenize l = Ok r) (l0 :: rest))
    as Hdict.
  { eapply Forall_impl; [exact Henc|]. intros l (r & _ & Hr & _). eauto. }
  destruct (mapM_result_Forall2 _ _ Hdict) as (mapping & Hm & Hall).
  unfold prepare_dataset. rewrite Hm. simpl.
  inversion Hall as [|? first ? mapping' Hfirst Hrest]; subst. unfold from_list.
  assert (Forall (fun d => ∃ out, process tokenizer label_vocab d = Ok out)
            (from_list_row first <$> first :: mapping')) as Hproc.
  { apply Forall_fmap. eapply Forall2_Forall_r; [exact Hall|].
    pose proof (proj2 (Forall_and _ _) (conj Henc Huni)) as Hboth.
    eapply Forall_impl; [exact Hboth|]. simpl. intros line [Hline Hiff] r Hr.
    inversion Henc; subst. by apply (process_from_list_Ok l0 line). }
  destruct (mapM_result_Forall2 _ _ Hproc) as (outs & Houts & _). eauto.
Qed.

Lemma fixed_shape_line (n : nat) (line : IGTLine) (first r : row) (out : encoded) :
  model_max_length tokenizer = Z.of_nat n →
  IGTLine_dict morpheme_tokenize line = Ok r →
  process tokenizer label_vocab (from_list_row first r) = Ok out →
  fixed_shape morpheme_tokenize n line out.
Proof.
  intros Hmax Hr Hout. destruct (IGTLine_dict_row line r Hr) as [Hm _].
  destruct (process_inv _ out Hout) as (ms & ids & Hms & Hids & Hin & Hatt & _).
  apply Forall2_length in Hids.
  assert (row_morphemes r = Some ms) as Hrow.
  { unfold from_list_row in Hms. simpl in Hms.
    destruct (is_none (row_morphemes first)); [done|]. by injection Hms. }
  exists ms. rewrite <- Hm. split; [done|]. intros Hn.
  rewrite Hin, Hatt, Hmax, !length_app, !length_replicate, <- Hids. unfold Py.replicate.
  split; [lia|]. split; [lia|]. f_equal; f_equal; lia.
Qed.

Lemma labels_padded_line (l0 line : IGTLine) (first r : row) (out : encoded) :
  IGTLine_dict morpheme_tokenize l0 = Ok first →
  IGTLine_dict morpheme_tokenize line = Ok r →
  process tokenizer label_vocab (from_list_row first r) = Ok out →
  labels_padded tokenizer label_vocab l0 line out.
Proof.
  intros Hfirst Hr Hout.
  destruct (process_inv _ out Hout) as (_ & _ & _ & _ & _ & _ & Hlab).
  rewrite (from_list_row_glosses l0) in Hlab by done.
  destruct (IGTLine_dict_row line r Hr) as [_ Hrow]. split.
  - intros H0. by rewrite H0 in Hlab.
  - intros H0. destruct (glosses l0); [|done]. simpl in Hlab.
    destruct Hlab as (gl & enc & Hcell & Henc & Hlabels).
    destruct (glosses line) as [g|]; [|congruence].
    destruct Hrow as (gl' & Hgloss & Hgl'). rewrite Hgl' in Hcell. injection Hcell as ->.
    pose proof (Forall2_length _ _ _ Henc) as Hlen.
    exists gl, enc, (enc ++ List.repeat (-100)
                       (Z.to_nat (model_max_length tokenizer - Z.of_nat (length gl)))).
    split; [done|]. split; [done|]. split; [|split; [|split; [done|split; [|split]]]].
    + clear -Henc. induction Henc as [|g' v gl enc Hv _ IH]; constructor; [|done].
      by apply (index_Ok_range label_vocab g').
    + rewrite Hlabels, Hlen. reflexivity.
    + rewrite length_app, repeat_length. lia.
    + intros i [Hi Hi']. rewrite length_app, repeat_length in Hi'.
      rewrite lookup_app_r by lia.
      apply (replicate_lookup_lt (-100) (model_max_length tokenizer - Z.of_nat (length gl))).
      lia.
    + intros i v Hi Hv. rewrite lookup_app_r in Hv by lia.
      apply (replicate_lookup (-100) v
               (model_max_length tokenizer - Z.of_nat (length gl))) in Hv.
      subst v. split; [done | lia].
Qed.


(** C6.  Whenever [prepare_dataset] returns on a list that starts with a
    line with glosses, every line of the list has a gloss list and the
    [labels] of its example are the indices of its glosses in the label
    vocabulary, each between 0 and the size of the vocabulary, followed by
    -100 on every position from the end of the gloss list up to the
    maximum length: the labels have the length of the larger of the two,
    and every position beyond the glosses holds -100, which is not a valid
    label index.  When the first line has no glosses, no example has
    labels.  [prepare_dataset] does return when every line can be encoded
    and either every line has glosses or none has. *)
Theorem prepare_dataset_label_padding (first : IGTLine) (rest : list IGTLine) :
  (∀ outs,
     prepare_dataset morpheme_tokenize tokenizer label_vocab (first :: rest) = Ok outs →
     Forall2 (labels_padded tokenizer label_vocab first) (first :: rest) outs)
  ∧ (Forall (encodable morpheme_tokenize tokenizer label_vocab) (first :: rest) →
     uniform_glosses (first :: rest) →
     ∃ outs,
       prepare_dataset morpheme_tokenize tokenizer label_vocab (first :: rest) = Ok outs).
Proof.
  split; [|apply prepare_dataset_returns].
  intros outs Hprep. apply prepare_dataset_inv in Hprep as (frow & Hfirst & Hall).
  eapply Forall2_impl; [exact Hall|]. intros line out (r & Hr & Hout).
  by apply (labels_padded_line first line frow r).
Qed.

End DatasetProperties.

Lemma sample_line_encodable :
  encodable sample_morpheme_tokenize sample_tokenizer sample_labels sample_line.
Proof.
  exists (mkRow (Some ["G1"; "[SEP]"; "G2"]) (Some ["A"; "B"])), ["A"; "B"].
  split; [reflexivity|]. split; [reflexivity|]. split.
  - repeat constructor; eexists; reflexivity.
  - intros gl [= <-]. unfold sample_labels. repeat constructor; set_solver.
Qed.

Lemma sample_lines_uniform : uniform_glosses [sample_line; sample_line].
Proof. right. repeat constructor; discriminate. Qed.

Example sample_line_encoded :
  prepare_dataset sample_morpheme_tokenize sample_tokenizer sample_labels [sample_line]
  = Ok [mkEncoded ([1; 1] ++ List.repeat 0 62)
                  ([1; 1] ++ List.repeat 0 62)
                  (Some ([0; 2; 1] ++ List.repeat (-100) 61))].
Proof. vm_compute. reflexivity. Qed.

(** A line without glosses after one with glosses: its cell of the glosses
    column holds [None], and [process] cannot iterate over it. *)
Example glosses_then_none :
  prepare_dataset sample_morpheme_tokenize sample_tokenizer sample_labels
    [sample_line; unglossed_line]
  = Raise TypeError.
Proof. vm_compute. reflexivity. Qed.

(** A line with glosses after one without: the dataset has no glosses
    column, and no example has labels. *)
Example none_then_glosses :
  prepare_dataset sample_morpheme_tokenize sample_tokenizer sample_labels
    [unglossed_line; sample_line]
  = Ok [mkEncoded ([1; 1] ++ List.repeat 0 62) ([1; 1] ++ List.repeat 0 62) None;
        mkEncoded ([1; 1] ++ List.repeat 0 62) ([1; 1] ++ List.repeat 0 62) None].
Proof. vm_compute. reflexivity. Qed.



Lemma prepare_dataset_label_padding_witness :
  ∃ outs,
    prepare_dataset sample_morpheme_tokenize sample_tokenizer sample_labels
      [sample_line; sample_line] = Ok outs
    ∧ Forall2 (labels_padded sample_tokenizer sample_labels sample_line)
        [sample_line; sample_line] outs.
Proof.
  pose proof (prepare_dataset_label_padding sample_morpheme_tokenize sample_tokenizer
                sample_labels sample_line [sample_line]) as [Hpad Hret].
  destruct Hret as [outs Houts].
  - repeat constructor; apply sample_line_encodable.
  - apply sample_lines_uniform.
  - exists outs. split; [exact Houts | exact (Hpad outs Houts)].
Defined.

(** ** [get_hierarchy_matrix] *)

Lemma item_tree_ind_list (P : item → Prop) (Q : list item → Prop) :
  (∀ gloss, P (Leaf gloss)) →
  (∀ label children, Q children → P (Group label children)) →
  Q [] →
  (∀ x rest, P x → Q rest → Q (x :: rest)) →
  ∀ tree, Q tree.
Proof.
  intros Hleaf Hgroup Hnil Hcons. induction tree as [|x rest IH]; [done|].
  apply Hcons; [|done]. by apply (item_tree_ind P Q).
Qed.

(** The tuple branch is a call of [parse_tree] on the sub-sequence, with
    the prefix extended by one more than the cell of the previous row. *)
Lemma hm_item_group (label : string) (children : list item) (group_prefix : list Z)
    (start_tag : nat) (m : matrix) :
  hm_item (Group label children) group_prefix start_tag m
  = v ← get_cell m (start_tag - 1) (length group_prefix);
    hm_parse_tree children (group_prefix ++ [v + 1]) start_tag m.
Proof.
  simpl. destruct (get_cell m (start_tag - 1) (length group_prefix)) as [v|e]; simpl; [|done].
  revert start_tag m. induction children as [|x rest IH]; intros start_tag m; simpl; [done|].
  destruct (start_tag =? 0)%nat; [apply IH|].
  destruct (hm_item x (group_prefix ++ [v + 1]) start_tag m) as [[s' m']|e]; simpl; [|done].
  apply IH.
Qed.

Lemma set_row_Ok (m m' : matrix) (i : nat) (r : list Z) :
  set_row m i r = Ok m' → (i < length m)%nat ∧ m' = <[i := r]> m.
Proof.
  unfold set_row. destruct (Nat.ltb_spec i (length m)); [|done].
  by intros [= <-].
Qed.

Lemma set_row_in_range (m : matrix) (i : nat) (r : list Z) :
  (i < length m)%nat → set_row m i r = Ok (<[i := r]> m).
Proof. intros H. unfold set_row. by destruct (Nat.ltb_spec i (length m)); [|lia]. Qed.

Lemma get_row_Ok (m : matrix) (i : nat) (r : list Z) :
  get_row m i = Ok r ↔ m !! i = Some r.
Proof.
  unfold get_row. destruct (m !! i); split; intros H; by simplify_eq.
Qed.

(** What the leaf branch writes: only the row of [start_tag]. *)
Lemma hm_leaf_Ok (group_prefix : list Z) (start_tag : nat) (m m' : matrix) :
  hm_leaf group_prefix start_tag m = Ok m' →
  ∃ r, m' = <[start_tag := r]> m ∧ (start_tag < length m)%nat.
Proof.
  unfold hm_leaf.
  destruct (get_row m (start_tag - 1)) as [prev|]; simpl; [|done].
  destruct (set_row m start_tag _) as [m1|] eqn:H1; simpl; [|done].
  apply set_row_Ok in H1 as [Hlt ->].
  destruct (get_row _ start_tag) as [r|]; simpl; [|done].
  destruct (assign_prefix r group_prefix) as [r'|]; simpl; [|done].
  intros H2. apply set_row_Ok in H2 as [_ ->].
  exists r'. split; [apply list_insert_insert_eq | done].
Qed.

(** The leaf branch in range: the row of [start_tag] becomes the group
    prefix followed by the rest of the previous row plus one. *)
Lemma hm_leaf_in_range (group_prefix prev : list Z) (start_tag : nat) (m : matrix) :
  (start_tag < length m)%nat →
  m !! (start_tag - 1)%nat = Some prev →
  (length group_prefix ≤ length prev)%nat →
  hm_leaf group_prefix start_tag m
  = Ok (<[start_tag := group_prefix
                       ++ drop (length group_prefix) ((fun v => v + 1) <$> prev)]> m).
Proof.
  intros Hlt Hprev Hlen. unfold hm_leaf.
  apply get_row_Ok in Hprev. rewrite Hprev. simpl.
  rewrite set_row_in_range by done. simpl.
  rewrite (proj2 (get_row_Ok _ _ _) (list_lookup_insert_eq _ _ _ Hlt)). simpl.
  unfold assign_prefix. rewrite length_map.
  destruct (Nat.leb_spec (length group_prefix) (length prev)); [|lia]. simpl.
  rewrite set_row_in_range by (by rewrite length_insert).
  f_equal. apply list_insert_insert_eq.
Qed.

(** The traversal never writes row 0. *)
Lemma hm_row_zero_preserved :
  (∀ it group_prefix start_tag m s' m',
     start_tag ≠ 0%nat →
     hm_item it group_prefix start_tag m = Ok (s', m') →
     s' ≠ 0%nat ∧ m' !! 0%nat = m !! 0%nat ∧ length m' = length m)
  ∧ (∀ tree group_prefix start_tag m s' m',
       hm_parse_tree tree group_prefix start_tag m = Ok (s', m') →
       (start_tag ≠ 0%nat → s' ≠ 0%nat)
       ∧ m' !! 0%nat = m !! 0%nat ∧ length m' = length m).
Proof.
  set (P := fun it => ∀ group_prefix start_tag m s' m',
     start_tag ≠ 0%nat →
     hm_item it group_prefix start_tag m = Ok (s', m') →
     s' ≠ 0%nat ∧ m' !! 0%nat = m !! 0%nat ∧ length m' = length m).
  set (Q := fun tree => ∀ group_prefix start_tag m s' m',
       hm_parse_tree tree group_prefix start_tag m = Ok (s', m') →
       (start_tag ≠ 0%nat → s' ≠ 0%nat)
       ∧ m' !! 0%nat = m !! 0%nat ∧ length m' = length m).
  assert (Hleaf : ∀ gloss, P (Leaf gloss)).
  { intros gloss group_prefix start_tag m s' m' Hne. simpl.
    destruct (hm_leaf group_prefix start_tag m) as [m1|] eqn:Hl; simpl; [|done].
    intros [= <- <-]. apply hm_leaf_Ok in Hl as (r & -> & _).
    split; [done|]. split; [by apply list_lookup_insert_ne | by rewrite length_insert]. }
  assert (Hgroup : ∀ label children, Q children → P (Group label children)).
  { intros label children IH group_prefix start_tag m s' m' Hne.
    rewrite hm_item_group.
    destruct (get_cell m (start_tag - 1) (length group_prefix)) as [v|]; simpl; [|done].
    intros H. apply IH in H as (H1 & H2 & H3). auto. }
  assert (Hnil : Q []).
  { intros group_prefix start_tag m s' m'. simpl. by intros [= <- <-]. }
  assert (Hcons : ∀ x rest, P x → Q rest → Q (x :: rest)).
  { intros x rest IHx IHrest group_prefix start_tag m s' m'. simpl.
    destruct (Nat.eqb_spec start_tag 0) as [->|Hne].
    - intros H. apply IHrest in H as (H1 & H2 & H3). split; [done|]. auto.
    - destruct (hm_item x group_prefix start_tag m) as [[s1 m1]|] eqn:Hx; simpl; [|done].
      apply IHx in Hx as (Hs1 & Hz1 & Hl1); [|done].
      intros H. apply IHrest in H as (H1 & H2 & H3).
      split; [auto|]. split; congruence. }
  split.
  - intros it. by apply (item_tree_ind P Q).
  - intros tree. by apply (item_tree_ind_list P Q).
Qed.

Example sample_tree_matrix :
  get_hierarchy_matrix sample_tree 4 2 = Ok [[0; 0]; [1; 1]; [1; 2]; [2; 3]].
Proof. reflexivity. Qed.

(** When the first item is a group, the skip of [start_tag == 0] passes
    over the whole group: its leaves get no row, and the next leaf is
    written to row 1. *)
Example first_group_skipped :
  get_hierarchy_matrix [Group "A" [Leaf "x"; Leaf "y"]; Leaf "z"] 3 2
  = Ok [[0; 0]; [1; 1]; [0; 0]].
Proof. reflexivity. Qed.

(** ** [taxonomic_loss] and [forward]: the labels tensor *)

Lemma relabel_no_ignore (data : list Z) : -100 ∉ relabel data.
Proof.
  unfold relabel. intros H. apply list_elem_of_In, in_map_iff in H as (v & Hv & _).
  destruct (Z.eqb_spec v (-100)); lia.
Qed.

Lemma relabel_lookup (data : list Z) (i : nat) :
  relabel data !! i = (fun v => if v =? -100 then 66 else v) <$> data !! i.
Proof. unfold relabel. apply list_lookup_fmap. Qed.

Section LossProperties.

Variable Loss : Type.
Variable loss_add : Loss → Loss → Loss.
Variable level_loss : nat → list Z → result Loss.

Lemma taxonomic_loss_store (h : gmap nat storage) (l : nat) (s : storage) :
  h !! l = Some s →
  taxonomic_loss loss_add level_loss h l
  = (alter (fun s => mkStorage (st_device s) (relabel (st_data s))) l h,
     fold_left (loss_step loss_add level_loss (relabel (st_data s))) (seq 0 5) (Ok None)).
Proof.
  intros H. unfold taxonomic_loss. rewrite lookup_alter_eq, H. reflexivity.
Qed.

(** With five level losses at hand the returned loss is their sum, taken
    from level 0 to level 4 on the rewritten labels. *)
Lemma taxonomic_loss_five_levels (h : gmap nat storage) (l : nat) (s : storage)
    (l0 l1 l2 l3 l4 : Loss) :
  h !! l = Some s →
  level_loss 0%nat (relabel (st_data s)) = Ok l0 →
  level_loss 1%nat (relabel (st_data s)) = Ok l1 →
  level_loss 2%nat (relabel (st_data s)) = Ok l2 →
  level_loss 3%nat (relabel (st_data s)) = Ok l3 →
  level_loss 4%nat (relabel (st_data s)) = Ok l4 →
  (taxonomic_loss loss_add level_loss h l).2
  = Ok (Some (loss_add (loss_add (loss_add (loss_add l0 l1) l2) l3) l4)).
Proof.
  intros H H0 H1 H2 H3 H4. rewrite (taxonomic_loss_store h l s H). simpl.
  unfold loss_step. simpl. rewrite H0. simpl. rewrite H1. simpl. rewrite H2. simpl.
  rewrite H3. simpl. by rewrite H4.
Qed.


End LossProperties.



(** * Further properties *)

(** ** The loader: ignored lines, emitted records, composition *)

Lemma rstrip_cons (c : ascii) (r : string) :
  Py.rstrip (String c r)
  = match Py.rstrip r with
    | EmptyString => if Py.isspace c then EmptyString else String c EmptyString
    | String a r' => String c (String a r')
    end.
Proof. simpl. by destruct (Py.rstrip r). Qed.

Lemma rstrip_idem (s : string) : Py.rstrip (Py.rstrip s) = Py.rstrip s.
Proof.
  induction s as [|c r IH]; [done|]. rewrite rstrip_cons.
  destruct (Py.rstrip r) as [|a r'] eqn:E.
  - destruct (Py.isspace c) eqn:Hc; [done|]. rewrite rstrip_cons. simpl. by rewrite Hc.
  - rewrite rstrip_cons, IH. reflexivity.
Qed.

Lemma rstrip_keeps_head (c : ascii) (r : string) :
  Py.isspace c = false → ∃ r', Py.rstrip (String c r) = String c r'.
Proof.
  intros Hc. rewrite rstrip_cons. destruct (Py.rstrip r); rewrite ?Hc; eauto.
Qed.

Lemma lstrip_head (s : string) :
  Py.lstrip s = EmptyString
  ∨ ∃ c r, Py.lstrip s = String c r ∧ Py.isspace c = false.
Proof.
  induction s as [|c r IH]; [by left|]. simpl.
  destruct (Py.isspace c) eqn:Hc; [done|]. right. eauto.
Qed.

(** Stripping twice is stripping once. *)
Lemma strip_idem (s : string) : Py.strip (Py.strip s) = Py.strip s.
Proof.
  unfold Py.strip at 2 3. destruct (lstrip_head s) as [-> | (c & r & -> & Hc)]; [done|].
  destruct (rstrip_keeps_head c r Hc) as [r' Hr]. unfold Py.strip.
  rewrite Hr. simpl. rewrite Hc. rewrite <- Hr. apply rstrip_idem.
Qed.

Lemma strip_backslash (rest : string) : Py.strip (String backslash rest) ≠ EmptyString.
Proof.
  unfold Py.strip. change (Py.lstrip (String backslash rest)) with (String backslash rest).
  by apply rstrip_not_space.
Qed.

(** X1.  A second line of a tag whose slot of the pending record is
    already filled is ignored: the loader state does not change, the first
    value stays. *)
Theorem load_line_filled_tag_ignored (st : loader_state) (rest : string) :
  (e_transc (current_entry st) ≠ None →
   load_line st (String backslash (String "t" rest)) = st)
  ∧ (e_segm (current_entry st) ≠ None →
     load_line st (String backslash (String "m" rest)) = st)
  ∧ (e_gloss (current_entry st) ≠ None →
     load_line st (String backslash (String "p" rest)) = st).
Proof.
  destruct st as [d [t m g l]]. simpl.
  split; [|split]; intros H; unfold load_line;
    match goal with
    | |- context [Py.slice_to 2 (String backslash (String ?c rest))] =>
        change (Py.slice_to 2 (String backslash (String c rest))) with (tag c);
        pose proof (strip_backslash (String c rest)) as Hs
    end; simpl current_entry; simpl e_transc; simpl e_segm; simpl e_gloss.
  - destruct t; [|done]. simpl.
    change (String.eqb (tag "t") (tag "m")) with false.
    change (String.eqb (tag "t") (tag "p")) with false.
    change (String.eqb (tag "t") (tag "l")) with false. simpl.
    apply String.eqb_neq in Hs. by rewrite Hs.
  - destruct m; [|done].
    change (String.eqb (tag "m") (tag "t")) with false.
    change (String.eqb (tag "m") (tag "m")) with true.
    change (String.eqb (tag "m") (tag "p")) with false.
    change (String.eqb (tag "m") (tag "l")) with false. simpl.
    apply String.eqb_neq in Hs. by rewrite Hs.
  - destruct g; [|done].
    change (String.eqb (tag "p") (tag "t")) with false.
    change (String.eqb (tag "p") (tag "m")) with false.
    change (String.eqb (tag "p") (tag "p")) with true.
    change (String.eqb (tag "p") (tag "l")) with false. simpl.
    apply String.eqb_neq in Hs. by rewrite Hs.
Qed.

Lemma load_line_filled_tag_ignored_witness :
  let st := fold_left load_line blank_line_sample initial_loader in
  e_transc (current_entry st) ≠ None
  ∧ load_line st (String backslash "t other") = st.
Proof.
  intros st. assert (e_transc (current_entry st) ≠ None) as H by (vm_compute; discriminate).
  split; [exact H|].
  exact (proj1 (load_line_filled_tag_ignored st " other") H).
Defined.

(** X3.  A gloss line with nothing but whitespace after its tag changes
    nothing: the glosses of the pending record stay as they are, absent if
    they were absent. *)
Theorem load_line_empty_gloss (st : loader_state) (rest : string) :
  Py.strip (Py.slice_from 3 (String backslash (String "p" rest))) = EmptyString →
  load_line st (String backslash (String "p" rest)) = st.
Proof.
  intros H. unfold load_line.
  change (Py.slice_to 2 (String backslash (String "p" rest))) with (tag "p").
  change (String.eqb (tag "p") (tag "t")) with false.
  change (String.eqb (tag "p") (tag "m")) with false.
  change (String.eqb (tag "p") (tag "p")) with true.
  change (String.eqb (tag "p") (tag "l")) with false.
  rewrite H. simpl.
  pose proof (strip_backslash (String "p" rest)) as Hs.
  apply String.eqb_neq in Hs. rewrite Hs.
  by destruct (is_none (e_gloss (current_entry st))).
Qed.

Lemma load_line_empty_gloss_witness :
  load_line initial_loader (String backslash (String "p" (String " " (String LF EmptyString))))
  = initial_loader.
Proof. apply load_line_empty_gloss. reflexivity. Defined.

Lemma stripped_None : stripped None.
Proof. by intros x. Qed.

Lemma stripped_strip (s : string) : stripped (Some (Py.strip s)).
Proof. intros x [= <-]. apply strip_idem. Qed.

Lemma flush_ok (st : loader_state) : loader_ok st → loader_ok (flush st).
Proof.
  intros (Hd & Hg & Ht & Hm & Hp & Hl). unfold flush.
  destruct (entry_is_empty (current_entry st)) eqn:He; simpl; [by repeat split|].
  repeat split; simpl; try done; try apply stripped_None.
  apply Forall_app. split; [done|]. constructor; [|constructor].
  unfold well_loaded, IGTLine_init. simpl. repeat split; try done.
  unfold entry_is_empty in He. by rewrite Hl in He.
Qed.

Lemma load_line_ok (st : loader_state) (line : string) :
  loader_ok st → loader_ok (load_line st line).
Proof.
  intros Hok. pose proof Hok as (Hd & Hg & Ht & Hm & Hp & Hl). unfold load_line.
  assert (stripped (Some (Py.strip (Py.slice_from 3 line)))) as Hc by apply stripped_strip.
  set (content := Py.strip (Py.slice_from 3 line)) in *.
  destruct (String.eqb _ (tag "t") && _);
    [repeat split; simpl; try done; exact Hc|].
  destruct (String.eqb _ (tag "m") && _);
    [repeat split; simpl; try done; exact Hc|].
  destruct (String.eqb _ (tag "p") && _).
  { destruct (Nat.ltb_spec 0 (String.length content)) as [Hlen|];
      [|done].
    repeat split; simpl; try done.
    intros [= Heq]. rewrite Heq in Hlen. simpl in Hlen. lia. }
  destruct (String.eqb _ (tag "l") && _).
  { repeat split; simpl; try done; try apply stripped_None.
    apply Forall_app. split; [done|]. constructor; [|constructor].
    unfold well_loaded, IGTLine_init. simpl. repeat split; try done.
    all: by rewrite ?andb_false_r. }
  destruct (negb _); [done|]. by apply flush_ok.
Qed.

Lemma fold_load_line_ok (lines : list string) (st : loader_state) :
  loader_ok st → loader_ok (fold_left load_line lines st).
Proof.
  revert st. induction lines as [|l lines IH]; intros st H; simpl; [done|].
  by apply IH, load_line_ok.
Qed.

Lemma initial_loader_ok : loader_ok initial_loader.
Proof. repeat split; try done; try apply stripped_None; constructor. Qed.

(** X4.  Whatever the lines, every record that the loader returns has at
    least one field present, never has the empty string as its glosses,
    holds only strings without leading or trailing whitespace, and has
    [should_segment] set. *)
Theorem load_lines_well_loaded (lines : list string) :
  Forall well_loaded (load_lines lines).
Proof.
  unfold load_lines.
  by destruct (flush_ok _ (fold_load_line_ok lines _ initial_loader_ok)) as [H _].
Qed.

Lemma records_in_sight_step (st : loader_state) (line : string) :
  (records_in_sight (load_line st line) ≤ S (records_in_sight st))%nat.
Proof.
  destruct st as [d [[t|] [m|] [g|] [l|]]]; unfold records_in_sight, load_line, flush;
    simpl; rewrite ?andb_false_r, ?andb_true_r;
    repeat match goal with
           | |- context [String.eqb ?a ?b] => destruct (String.eqb a b); simpl
           | |- context [(0 <? ?n)%nat] => destruct (0 <? n)%nat; simpl
           end; rewrite ?length_app; simpl; lia.
Qed.

Lemma records_in_sight_fold (lines : list string) (st : loader_state) :
  (records_in_sight (fold_left load_line lines st) ≤ length lines + records_in_sight st)%nat.
Proof.
  revert st. induction lines as [|l lines IH]; intros st; simpl; [lia|].
  specialize (IH (load_line st l)). pose proof (records_in_sight_step st l). lia.
Qed.

(** X5.  The loader returns at most as many records as the file has
    lines. *)
Theorem load_lines_length (lines : list string) :
  (length (load_lines lines) ≤ length lines)%nat.
Proof.
  pose proof (records_in_sight_fold lines initial_loader) as H.
  unfold load_lines, flush. unfold records_in_sight in H. simpl in H.
  destruct (entry_is_empty (current_entry (fold_left load_line lines initial_loader)));
    simpl; rewrite ?length_app; simpl; lia.
Qed.

(** The records already emitted do not influence the loop. *)
Lemma load_line_shift (d : list IGTLine) (st : loader_state) (line : string) :
  load_line (mkLoader (d ++ all_data st) (current_entry st)) line
  = mkLoader (d ++ all_data (load_line st line)) (current_entry (load_line st line)).
Proof.
  unfold load_line, flush. simpl.
  repeat match goal with
         | |- context [if ?b then _ else _] => destruct b
         end; simpl; by rewrite ?app_assoc.
Qed.

Lemma fold_load_line_shift (lines : list string) (d : list IGTLine) (st : loader_state) :
  fold_left load_line lines (mkLoader (d ++ all_data st) (current_entry st))
  = mkLoader (d ++ all_data (fold_left load_line lines st))
             (current_entry (fold_left load_line lines st)).
Proof.
  revert st. induction lines as [|l lines IH]; intros st; simpl; [done|].
  by rewrite load_line_shift, IH.
Qed.

Lemma flush_shift (d : list IGTLine) (st : loader_state) :
  all_data (flush (mkLoader (d ++ all_data st) (current_entry st)))
  = d ++ all_data (flush st).
Proof.
  unfold flush. simpl. destruct (negb (entry_is_empty (current_entry st))); simpl;
    by rewrite ?app_assoc.
Qed.

(** Loading what follows a point where nothing is pending. *)
Lemma load_lines_after_empty (l1 l2 : list string) :
  current_entry (fold_left load_line l1 initial_loader) = empty_entry →
  load_lines (l1 ++ l2) = load_lines l1 ++ load_lines l2.
Proof.
  intros He. unfold load_lines. rewrite fold_left_app.
  set (st1 := fold_left load_line l1 initial_loader) in *.
  assert (st1 = mkLoader (all_data st1 ++ all_data initial_loader)
                         (current_entry initial_loader)) as ->.
  { destruct st1 as [d e]. simpl in *. by rewrite He, app_nil_r. }
  rewrite fold_load_line_shift, flush_shift. f_equal.
  simpl. unfold flush. simpl. by rewrite app_nil_r.
Qed.

(** X6.  A blank line and a translation line are record boundaries: the
    records of a file are those of the part up to such a line followed by
    those of the part after it, loaded on its own. *)
Theorem load_lines_split (l1 l2 : list string) (b rest : string) :
  (Py.strip b = EmptyString →
   load_lines (l1 ++ b :: l2) = load_lines l1 ++ load_lines l2)
  ∧ load_lines (l1 ++ String backslash (String "l" rest) :: l2)
    = load_lines (l1 ++ [String backslash (String "l" rest)]) ++ load_lines l2.
Proof.
  split.
  - intros Hb.
    assert (load_lines (l1 ++ [b]) = load_lines l1) as <-.
    { unfold load_lines. rewrite fold_left_app. simpl.
      rewrite load_line_blank by done. by rewrite flush_idem. }
    rewrite (cons_middle b), app_assoc. apply load_lines_after_empty.
    rewrite fold_left_app. simpl. rewrite load_line_blank by done. apply flush_pending.
  - rewrite (cons_middle (String backslash (String "l" rest))), app_assoc.
    apply load_lines_after_empty. rewrite fold_left_app. simpl.
    by rewrite load_line_translation_tag by apply loader_transl.
Qed.

Lemma load_lines_split_witness :
  Py.strip (String LF EmptyString) = EmptyString
  ∧ load_lines (blank_line_sample ++ String LF EmptyString :: blank_line_sample)
    = load_lines blank_line_sample ++ load_lines blank_line_sample.
Proof.
  split; [reflexivity|].
  exact (proj1 (load_lines_split blank_line_sample blank_line_sample
                  (String LF EmptyString) EmptyString) eq_refl).
Defined.

(** ** [gloss_list] on a record with glosses *)

Lemma split_each_has_piece (p : ascii → bool) (w : string) :
  existsb Py.nonempty (Py.split_each p w) = Py.existsb_str (fun c => negb (p c)) w.
Proof.
  induction w as [|c r IH]; [done|]. simpl.
  destruct (p c); simpl; [done|]. by destruct (Py.split_each p r).
Qed.

Lemma split_runs_has_piece (p q : ascii → bool) (in_run : bool) (s : string) :
  existsb (Py.existsb_str q) (Py.split_runs p in_run s)
  = Py.existsb_str (fun c => negb (p c) && q c) s.
Proof.
  revert in_run. induction s as [|c r IH]; intros in_run; [done|]. simpl.
  destruct (p c); simpl.
  - destruct in_run; simpl; apply IH.
  - specialize (IH false). destruct (Py.split_runs p false r) as [|h t]; simpl in *.
    + by rewrite <- IH, !orb_false_r.
    + by rewrite <- IH, orb_assoc.
Qed.

Lemma filter_nonempty_lists_nil {A : Type} (P : A → bool) (L : list (list A)) :
  List.filter (fun w => negb (Nat.eqb (length w) 0)) (List.map (List.filter P) L) = []
  ↔ existsb (existsb P) L = false.
Proof.
  induction L as [|l L IH]; [done|]. simpl.
  assert (negb (Nat.eqb (length (List.filter P l)) 0) = existsb P l) as ->.
  { clear. induction l as [|x l IH]; [done|]. simpl. destruct (P x); simpl; [done|].
    apply IH. }
  destruct (existsb P l); simpl; [split; discriminate | apply IH].
Qed.

Lemma existsb_map_compose {A B : Type} (f : A → B) (P : B → bool) (l : list A) :
  existsb P (List.map f l) = existsb (fun x => P (f x)) l.
Proof. induction l as [|x l IH]; [done|]. simpl. by rewrite IH. Qed.

Lemma existsb_ext_eq {A : Type} (P Q : A → bool) (l : list A) :
  (∀ x, P x = Q x) → existsb P l = existsb Q l.
Proof. intros H. induction l as [|x l IH]; [done|]. simpl. by rewrite H, IH. Qed.

Lemma fold_sep_Forall (Q : string → Prop) (r : list (list string)) (x : list string) :
  Q SEP → Forall Q x → Forall (Forall Q) r →
  Forall Q (fold_left (fun a b => a ++ [SEP] ++ b) r x).
Proof.
  intros Hsep. revert x. induction r as [|y r IH]; intros x Hx Hr; simpl; [done|].
  inversion Hr; subst. apply IH; [|done].
  apply Forall_app. split; [done|]. by constructor.
Qed.

Lemma fold_sep_length (r : list (list string)) (x : list string) :
  (length x ≤ length (fold_left (fun a b => a ++ [SEP] ++ b) r x))%nat.
Proof.
  revert x. induction r as [|y r IH]; intros x; simpl; [lia|].
  specialize (IH (x ++ [SEP] ++ y)). rewrite length_app in IH. simpl in IH. lia.
Qed.

Lemma fold_sep_nonempty (r : list (list string)) (x : list string) :
  x ≠ [] → fold_left (fun a b => a ++ [SEP] ++ b) r x ≠ [].
Proof.
  intros Hx Heq. pose proof (fold_sep_length r x) as Hlen. rewrite Heq in Hlen.
  destruct x; [done|]. simpl in Hlen. lia.
Qed.

(** The segmented gloss list of any record with glosses [g]. *)
Lemma gloss_list_segmented_of (self : IGTLine) (g : string) :
  glosses self = Some g →
  if Py.existsb_str tag_char g then
    ∃ gl, gloss_list self true = Ok (Some gl)
          ∧ gl ≠ []
          ∧ Forall (fun x => x ≠ EmptyString) gl
  else gloss_list self true = Raise TypeError.
Proof.
  intros Hg. unfold gloss_list. rewrite Hg. simpl.
  set (L := List.map Py.re_split_hyphen (Py.re_split_ws g)).
  assert (existsb (existsb Py.nonempty) L = Py.existsb_str tag_char g) as HL.
  { unfold L, Py.re_split_ws. rewrite existsb_map_compose.
    etransitivity;
      [|exact (split_runs_has_piece Py.isspace
                 (fun c => negb (Ascii.eqb c "-"%char)) false g)].
    apply existsb_ext_eq. intros w. apply split_each_has_piece. }
  pose proof (filter_nonempty_lists_nil Py.nonempty L) as Hnil.
  rewrite HL in Hnil.
  destruct (List.filter _ (List.map (List.filter Py.nonempty) L)) as [|x r] eqn:HF.
  - rewrite (proj1 Hnil eq_refl). reflexivity.
  - destruct (Py.existsb_str tag_char g); [|discriminate (proj2 Hnil eq_refl)].
    simpl. eexists. split; [reflexivity|].
    assert (Forall (fun w : list string =>
                      w ≠ [] ∧ Forall (fun s => s ≠ EmptyString) w) (x :: r)) as Hall.
    { rewrite <- HF. apply Forall_forall. intros w Hw.
      apply list_elem_of_In, filter_In in Hw as [Hw Hlen].
      split; [by destruct w|].
      apply in_map_iff in Hw as (w0 & <- & _). apply Forall_forall. intros s Hs.
      apply list_elem_of_In, filter_In in Hs as [_ Hs]. by destruct s. }
    inversion Hall as [|? ? [Hx Hxs] Hr]; subst. split.
    + by apply fold_sep_nonempty.
    + apply fold_sep_Forall; [done | done |].
      eapply Forall_impl; [exact Hr|]. by intros w [_ Hw].
Qed.

(** X7.  On a record with glosses [g], the segmented gloss list raises a
    [TypeError] exactly when [g] has no character other than whitespace
    and hyphens; otherwise it returns a list that is not empty and holds
    no empty string. *)
Theorem gloss_list_segmented (g : string) (flag : bool) :
  if Py.existsb_str tag_char g then
    ∃ gl, gloss_list (gloss_line g flag) true = Ok (Some gl)
          ∧ gl ≠ []
          ∧ Forall (fun x => x ≠ EmptyString) gl
  else gloss_list (gloss_line g flag) true = Raise TypeError.
Proof. by apply gloss_list_segmented_of. Qed.

(** ** [create_vocab]: threshold and casing *)

(** X9.  With a threshold of 1 or less, as the training scripts use it,
    nothing is filtered by frequency: the vocabulary is exactly the set of
    counted tokens. *)
Theorem create_vocab_low_threshold (sentences : list (option (list string)))
    (threshold : Z) (should_not_lower : bool) (w : string) :
  threshold ≤ 1 →
  w ∈ create_vocab sentences threshold should_not_lower
  ↔ w ∈ counted should_not_lower (all_tokens sentences).
Proof.
  intros Hth. rewrite elem_of_create_vocab. split; [by intros [H _]|].
  intros H. split; [done|].
  apply occurrences_pos_elem in H.
  pose proof (occurrences_nonneg w (counted should_not_lower (all_tokens sentences))). lia.
Qed.

Lemma create_vocab_low_threshold_witness :
  1 ≤ 1
  ∧ ("eat" ∈ create_vocab [Some ["run"; "RUN"]; Some ["run"; "eat"]] 1 false
     ↔ "eat" ∈ counted false (all_tokens [Some ["run"; "RUN"]; Some ["run"; "eat"]])).
Proof.
  split; [lia|].
  apply (create_vocab_low_threshold [Some ["run"; "RUN"]; Some ["run"; "eat"]] 1 false "eat").
  lia.
Defined.

(** X10.  Raising the threshold only removes words: the vocabulary for a
    higher threshold is contained in the one for a lower threshold. *)
Theorem create_vocab_threshold_antitone (sentences : list (option (list string)))
    (t1 t2 : Z) (should_not_lower : bool) :
  t1 ≤ t2 →
  create_vocab sentences t2 should_not_lower ⊆ create_vocab sentences t1 should_not_lower.
Proof.
  intros Hle w. rewrite !elem_of_create_vocab. intros [Hw Hc]. split; [done | lia].
Qed.

Lemma create_vocab_threshold_antitone_witness :
  1 ≤ 2
  ∧ create_vocab [Some ["run"; "RUN"]; Some ["run"; "eat"]] 2 false
    ⊆ create_vocab [Some ["run"; "RUN"]; Some ["run"; "eat"]] 1 false.
Proof.
  split; [lia|].
  apply (create_vocab_threshold_antitone [Some ["run"; "RUN"]; Some ["run"; "eat"]] 1 2 false).
  lia.
Defined.

Lemma lower_char_not_upper (c : ascii) : Py.is_ascii_upper (Py.lower_char c) = false.
Proof. destruct c as [[] [] [] [] [] [] [] []]; reflexivity. Qed.

Lemma lower_no_upper (s : string) :
  Py.existsb_str Py.is_ascii_upper (Py.lower s) = false.
Proof.
  induction s as [|c r IH]; [done|]. simpl. by rewrite lower_char_not_upper, IH.
Qed.

Lemma elem_of_counted (snl : bool) (ws : list string) (w : string) :
  w ∈ counted snl ws → ∃ x, x ∈ ws ∧ w = cased snl x.
Proof.
  unfold counted. intros H. apply list_elem_of_filter in H as [_ H].
  apply list_elem_of_fmap in H as (x & -> & Hx). eauto.
Qed.

(** X11.  Every word of the vocabulary comes from a token of the input.
    With lower-casing on, it is that token if the token is upper-case and
    its lower-cased form otherwise, so a word of the vocabulary is either
    upper-case or free of upper-case letters: a token of mixed case is
    never in the vocabulary under its own spelling.  With lower-casing off
    it is the token itself. *)
Theorem create_vocab_casing (sentences : list (option (list string)))
    (threshold : Z) (should_not_lower : bool) (w : string) :
  w ∈ create_vocab sentences threshold should_not_lower →
  (∃ x, x ∈ all_tokens sentences ∧ w = cased should_not_lower x)
  ∧ (should_not_lower = false →
     Py.isupper w = true ∨ Py.existsb_str Py.is_ascii_upper w = false)
  ∧ (should_not_lower = true → w ∈ all_tokens sentences).
Proof.
  intros H. apply elem_of_create_vocab in H as [H _].
  apply elem_of_counted in H as (x & Hx & ->). split; [eauto|]. split.
  - intros ->. unfold cased. destruct (Py.isupper x) eqn:Hu; simpl.
    + by left.
    + right. apply lower_no_upper.
  - intros ->. unfold cased. by rewrite andb_false_r.
Qed.

Lemma create_vocab_casing_witness :
  "run" ∈ create_vocab [Some ["Run"; "RUN"]; Some ["run"; "eat"]] 2 false
  ∧ (Py.isupper "run" = true ∨ Py.existsb_str Py.is_ascii_upper "run" = false).
Proof.
  assert ("run" ∈ create_vocab [Some ["Run"; "RUN"]; Some ["run"; "eat"]] 2 false) as H
    by (vm_compute; left).
  split; [exact H|].
  exact (proj1 (proj2 (create_vocab_casing _ 2 false "run" H)) eq_refl).
Defined.

(** ** [create_gloss_vocab]: composition *)

Lemma gloss_parse_tree_app (t1 t2 : list item) :
  gloss_parse_tree (t1 ++ t2) = gloss_parse_tree t1 ++ gloss_parse_tree t2.
Proof.
  induction t1 as [|x t1 IH]; [done|]. simpl.
  rewrite !gloss_parse_tree_cons, IH. by rewrite app_assoc.
Qed.

(** X12.  The flattening of two trees put end to end is the two
    flattenings put end to end, and grouping items under a label does not
    change the flattening: group labels never reach the label space, only
    the order of the leaves does. *)
Theorem create_gloss_vocab_compose (t1 t2 : list item) (label : string) :
  create_gloss_vocab (t1 ++ t2) = create_gloss_vocab t1 ++ create_gloss_vocab t2
  ∧ create_gloss_vocab (t1 ++ [Group label t2]) = create_gloss_vocab (t1 ++ t2).
Proof.
  unfold create_gloss_vocab. rewrite !gloss_parse_tree_app. split; [done|].
  f_equal.
Qed.

(** ** [prepare_dataset]: lengths, positions, labels, failures *)

Lemma index_lookup (l : list string) (x : string) (v : Z) :
  Py.index l x = Ok v →
  0 ≤ v
  ∧ l !! Z.to_nat v = Some x
  ∧ ∀ j : nat, (j < Z.to_nat v)%nat → l !! j ≠ Some x.
Proof.
  revert v. induction l as [|y l IH]; intros v; simpl; [done|].
  destruct (String.eqb_spec y x) as [->|Hne].
  - intros [= <-]. split; [lia|]. split; [done|]. intros j Hj. simpl in Hj. lia.
  - destruct (Py.index l x) as [i|]; simpl; [|done].
    intros [= <-]. destruct (IH i eq_refl) as (Hi & Hl & Hfirst).
    split; [lia|]. replace (Z.to_nat (i + 1)) with (S (Z.to_nat i)) by lia.
    split; [done|]. intros [|j] Hj; simpl; [congruence|]. apply Hfirst. lia.
Qed.

Section DatasetFurtherProperties.

Variable morpheme_tokenize : string → list string.
Variable tokenizer : WordLevelTokenizer.
Variable label_vocab : list string.

(** Lifting a fact about one line to a dataset whose lines can be encoded
    and have the keys of the first one. *)
Lemma prepare_dataset_lift (R : IGTLine → encoded → Prop) (data : list IGTLine) :
  (∀ l0 first line r out,
     IGTLine_dict morpheme_tokenize l0 = Ok first →
     (glosses l0 = None ↔ glosses line = None) →
     IGTLine_dict morpheme_tokenize line = Ok r →
     process tokenizer label_vocab (from_list_row first r) = Ok out → R line out) →
  Forall (encodable morpheme_tokenize tokenizer label_vocab) data →
  uniform_glosses data →
  ∃ outs,
    prepare_dataset morpheme_tokenize tokenizer label_vocab data = Ok outs
    ∧ Forall2 R data outs.
Proof.
  intros HR Henc Huni.
  destruct (prepare_dataset_returns _ _ _ data Henc Huni) as [outs Houts].
  exists outs. split; [done|]. destruct data as [|l0 rest].
  - injection Houts as <-. constructor.
  - apply prepare_dataset_inv in Houts as (first & Hfirst & Hall).
    apply uniform_glosses_head in Huni.
    apply (Forall2_Forall_mp _ _ _ _ Huni).
    eapply Forall2_impl; [exact Hall|]. intros line out (r & Hr & Hout) Hiff.
    by apply (HR l0 first line r out).
Qed.

(** The ids and the mask of the example of one line. *)
Lemma process_ids_mask (line : IGTLine) (first r : row) (out : encoded) :
  IGTLine_dict morpheme_tokenize line = Ok r →
  process tokenizer label_vocab (from_list_row first r) = Ok out →
  ∃ ms ids,
    morphemes morpheme_tokenize line = Some ms
    ∧ Forall2 (fun m id => convert_token_to_id tokenizer m = Ok id) ms ids
    ∧ input_ids out
      = ids ++ Py.replicate (PAD_ID tokenizer)
                 (model_max_length tokenizer - Z.of_nat (length ids))
    ∧ attention_mask out
      = Py.replicate 1 (Z.of_nat (length ids))
        ++ Py.replicate 0 (model_max_length tokenizer - Z.of_nat (length ids)).
Proof.
  intros Hr Hout. destruct (IGTLine_dict_row _ line r Hr) as [Hm _].
  destruct (process_inv _ _ _ out Hout) as (ms & ids & Hms & Hids & Hin & Hatt & _).
  exists ms, ids. rewrite <- Hm. split; [|done].
  unfold from_list_row in Hms. simpl in Hms.
  destruct (is_none (row_morphemes first)); [done|]. by injection Hms.
Qed.

Lemma untruncated_line (line : IGTLine) (first r : row) (out : encoded) :
  IGTLine_dict morpheme_tokenize line = Ok r →
  process tokenizer label_vocab (from_list_row first r) = Ok out →
  untruncated morpheme_tokenize tokenizer line out.
Proof.
  intros Hr Hout.
  destruct (process_ids_mask line first r out Hr Hout) as (ms & ids & Hms & Hids & Hin & Hatt).
  apply Forall2_length in Hids. exists ms. split; [done|].
  rewrite Hin, Hatt, !length_app, !length_replicate, <- Hids.
  split; [lia|]. split; [lia|]. intros Hlt. unfold Py.replicate.
  replace (Z.to_nat (model_max_length tokenizer - Z.of_nat (length ms))) with 0%nat by lia.
  simpl. rewrite app_nil_r. f_equal. lia.
Qed.

(** X13.  For lines that can be encoded and that all have glosses or all
    have none, without any bound on their length, [prepare_dataset]
    returns, and each example has [input_ids] and [attention_mask] of the
    same length, the larger of the morpheme count and the maximum length:
    a line with more morphemes than the maximum length is not truncated,
    and its mask is all ones. *)
Theorem prepare_dataset_untruncated (data : list IGTLine) :
  Forall (encodable morpheme_tokenize tokenizer label_vocab) data →
  uniform_glosses data →
  ∃ outs,
    prepare_dataset morpheme_tokenize tokenizer label_vocab data = Ok outs
    ∧ Forall2 (untruncated morpheme_tokenize tokenizer) data outs.
Proof.
  apply prepare_dataset_lift. intros l0 first line r out _ _. apply untruncated_line.
Qed.

Lemma mask_matches_ids_line (line : IGTLine) (first r : row) (out : encoded) :
  IGTLine_dict morpheme_tokenize line = Ok r →
  process tokenizer label_vocab (from_list_row first r) = Ok out →
  mask_matches_ids morpheme_tokenize tokenizer line out.
Proof.
  intros Hr Hout.
  destruct (process_ids_mask line first r out Hr Hout) as (ms & ids & Hms & Hids & Hin & Hatt).
  pose proof (Forall2_length _ _ _ Hids) as Hlen.
  exists ms. split; [done|]. intros i. rewrite Hin, Hatt.
  destruct (Nat.lt_ge_cases i (length ms)) as [Hi|Hi].
  - rewrite lookup_app_l by (rewrite length_replicate; lia).
    rewrite replicate_lookup_lt by lia. split; [done|]. split; [done|].
    intros m Hm'. destruct (Forall2_lookup_l _ _ _ _ _ Hids Hm') as (id & Hid & Hconv).
    exists id. split; [done|]. rewrite lookup_app_l by (by eapply lookup_lt_Some). done.
  - rewrite !lookup_app_r by (rewrite ?length_replicate; lia). split; [|split].
    + split; [|lia]. intros H. by apply replicate_lookup in H.
    + rewrite length_replicate. intros H.
      apply lookup_lt_Some in H as Hlt. rewrite length_replicate in Hlt.
      apply replicate_lookup_lt. lia.
    + intros m Hm'. apply lookup_lt_Some in Hm'. lia.
Qed.

(** X14.  For lines that can be encoded and that all have glosses or all
    have none, [prepare_dataset] returns, and position by position: the
    attention mask is 1 exactly on the positions of the morphemes, where
    [input_ids] holds the id of the morpheme at that position, and wherever
    the mask is 0 [input_ids] holds the pad id. *)
Theorem prepare_dataset_mask_matches_ids (data : list IGTLine) :
  Forall (encodable morpheme_tokenize tokenizer label_vocab) data →
  uniform_glosses data →
  ∃ outs,
    prepare_dataset morpheme_tokenize tokenizer label_vocab data = Ok outs
    ∧ Forall2 (mask_matches_ids morpheme_tokenize tokenizer) data outs.
Proof.
  apply prepare_dataset_lift. intros l0 first line r out _ _. apply mask_matches_ids_line.
Qed.

Lemma labels_decode_line (l0 line : IGTLine) (first r : row) (out : encoded) :
  IGTLine_dict morpheme_tokenize l0 = Ok first →
  (glosses l0 = None ↔ glosses line = None) →
  IGTLine_dict morpheme_tokenize line = Ok r →
  process tokenizer label_vocab (from_list_row first r) = Ok out →
  labels_decode label_vocab line out.
Proof.
  intros Hfirst Hiff Hr Hout g Hg.
  destruct (labels_padded_line _ _ _ l0 line first r out Hfirst Hr Hout) as [_ Hpad].
  destruct Hpad as (gl & enc & ls & Hgloss & Henc & _ & Hlabels & -> & _).
  { intros H0. apply Hiff in H0. congruence. }
  exists gl. eexists. split; [done|]. split; [exact Hlabels|].
  intros i x Hx. destruct (Forall2_lookup_l _ _ _ _ _ Henc Hx) as (v & Hv & Hidx).
  exists v. rewrite lookup_app_l by (by eapply lookup_lt_Some).
  split; [done|]. by apply index_lookup.
Qed.

(** X15.  For lines that can be encoded and that all have glosses,
    or all have none, [prepare_dataset] returns, and the labels of a line
    with glosses decode back to its gloss list: the label at the position
    of a gloss is a non-negative index at which the label vocabulary holds
    that gloss, and the first such index. *)
Theorem prepare_dataset_labels_decode (data : list IGTLine) :
  Forall (encodable morpheme_tokenize tokenizer label_vocab) data →
  uniform_glosses data →
  ∃ outs,
    prepare_dataset morpheme_tokenize tokenizer label_vocab data = Ok outs
    ∧ Forall2 (labels_decode label_vocab) data outs.
Proof.
  apply prepare_dataset_lift. intros l0 first line r out. apply labels_decode_line.
Qed.

Lemma mapM_index_unknown (gl : list string) (g : string) :
  g ∈ gl → g ∉ label_vocab → mapM (Py.index label_vocab) gl = Raise ValueError.
Proof.
  intros Hin Hg. induction gl as [|x gl IH]; [inversion Hin|].
  rewrite mapM_result_cons.
  assert (∀ x, x ∉ label_vocab → Py.index label_vocab x = Raise ValueError) as Hmiss.
  { clear. intros x. induction label_vocab as [|y l IH]; intros Hx; [done|]. simpl.
    destruct (String.eqb_spec y x) as [->|Hne]; [by destruct Hx; left|].
    rewrite IH; [done|]. intros H. apply Hx. by right. }
  destruct (decide (x ∈ label_vocab)) as [Hx|Hx].
  - destruct (index_elem_of _ _ Hx) as [i ->]. simpl.
    apply elem_of_cons in Hin as [->|Hin]; [done|]. by rewrite IH.
  - by rewrite Hmiss.
Qed.

(** The row of a line with known morphemes in a dataset that has both
    columns: what [process] does with its cell of the glosses column. *)
Lemma process_glosses_cell (first r : row) (ms : list string) :
  row_morphemes first ≠ None →
  row_glosses first ≠ None →
  row_morphemes r = Some ms →
  Forall (fun m => ∃ i, convert_token_to_id tokenizer m = Ok i) ms →
  (row_glosses r = None →
   process tokenizer label_vocab (from_list_row first r) = Raise TypeError)
  ∧ (∀ gl g, row_glosses r = Some gl → g ∈ gl → g ∉ label_vocab →
             process tokenizer label_vocab (from_list_row first r) = Raise ValueError).
Proof.
  intros Hm0 Hg0 Hms Hconv. unfold process, from_list_row, convert_tokens_to_ids.
  destruct (row_morphemes first); [|done]. destruct (row_glosses first); [|done].
  simpl. rewrite Hms. simpl.
  destruct (mapM_result_Forall2 _ _ Hconv) as (ids & -> & _). simpl. split.
  - by intros ->.
  - intros gl g -> Hin Hg. simpl. by rewrite (mapM_index_unknown gl g).
Qed.

(** The first row that [process] refuses decides the outcome. *)
Lemma prepare_dataset_at (l0 : IGTLine) (pre post : list IGTLine) (line : IGTLine)
    (first r : row) (e : exn) :
  Forall (fun l => ∃ r', IGTLine_dict morpheme_tokenize l = Ok r') post →
  IGTLine_dict morpheme_tokenize l0 = Ok first →
  Forall (fun l => ∃ r' out,
            IGTLine_dict morpheme_tokenize l = Ok r'
            ∧ process tokenizer label_vocab (from_list_row first r') = Ok out)
    (l0 :: pre) →
  IGTLine_dict morpheme_tokenize line = Ok r →
  process tokenizer label_vocab (from_list_row first r) = Raise e →
  prepare_dataset morpheme_tokenize tokenizer label_vocab (l0 :: pre ++ line :: post)
  = Raise e.
Proof.
  intros Hpost Hfirst Hpre Hr He.
  inversion Hpre as [|? ? (r0 & out0 & Hr0 & Hout0) Hpre']; subst.
  rewrite Hfirst in Hr0. injection Hr0 as <-.
  assert (∃ rows_pre rows_post,
             mapM (IGTLine_dict morpheme_tokenize) (pre ++ line :: post)
             = Ok (rows_pre ++ r :: rows_post)
             ∧ Forall (fun r' => ∃ out,
                         process tokenizer label_vocab (from_list_row first r') = Ok out)
                 rows_pre)
    as (rows_pre & rows_post & Hrows & Hok).
  { clear Hpre. induction Hpre' as [|l pre (r' & out & Hr' & Hout) _ IH]; cbn [app].
    - destruct (mapM_result_Forall2 _ _ Hpost) as (rows_post & Hp & _).
      exists [], rows_post. rewrite mapM_result_cons, Hr, Hp. by split; [|constructor].
    - destruct IH as (rows_pre & rows_post & IH & Hok).
      exists (r' :: rows_pre), rows_post. rewrite mapM_result_cons, Hr', IH.
      split; [done|]. constructor; eauto. }
  assert (mapM (IGTLine_dict morpheme_tokenize) (l0 :: pre ++ line :: post)
          = Ok (first :: rows_pre ++ r :: rows_post)) as Hm
    by (by rewrite mapM_result_cons, Hfirst, Hrows).
  unfold prepare_dataset. rewrite Hm.
  change (mapM (process tokenizer label_vocab)
            (from_list_row first <$> first :: rows_pre ++ r :: rows_post) = Raise e).
  rewrite fmap_cons, fmap_app, fmap_cons, mapM_result_cons, Hout0.
  rewrite (mapM_result_raise _ _ _ _ e); [done| |done].
  by apply Forall_fmap.
Qed.


End DatasetFurtherProperties.

Lemma sample_line_encodable_short :
  encodable sample_morpheme_tokenize short_tokenizer sample_labels sample_line.
Proof.
  exists (mkRow (Some ["G1"; "[SEP]"; "G2"]) (Some ["A"; "B"])), ["A"; "B"].
  split; [reflexivity|]. split; [reflexivity|]. split.
  - repeat constructor; eexists; reflexivity.
  - intros gl [= <-]. unfold sample_labels. repeat constructor; set_solver.
Qed.

(** Two morphemes under a maximum length of 1: two ids, two mask bits,
    three labels. *)
Example sample_line_overlong :
  prepare_dataset sample_morpheme_tokenize short_tokenizer sample_labels [sample_line]
  = Ok [mkEncoded [1; 1] [1; 1] (Some [0; 2; 1])].
Proof. vm_compute. reflexivity. Qed.

Lemma prepare_dataset_untruncated_witness :
  Forall (encodable sample_morpheme_tokenize short_tokenizer sample_labels)
    [sample_line; sample_line]
  ∧ uniform_glosses [sample_line; sample_line]
  ∧ ∃ outs,
      prepare_dataset sample_morpheme_tokenize short_tokenizer sample_labels
        [sample_line; sample_line] = Ok outs
      ∧ Forall2 (untruncated sample_morpheme_tokenize short_tokenizer)
          [sample_line; sample_line] outs.
Proof.
  assert (Forall (encodable sample_morpheme_tokenize short_tokenizer sample_labels)
            [sample_line; sample_line]) as Henc
    by (repeat constructor; apply sample_line_encodable_short).
  split; [exact Henc|]. split; [exact sample_lines_uniform|].
  exact (prepare_dataset_untruncated sample_morpheme_tokenize short_tokenizer sample_labels
           [sample_line; sample_line] Henc sample_lines_uniform).
Defined.

Lemma prepare_dataset_mask_matches_ids_witness :
  Forall (encodable sample_morpheme_tokenize sample_tokenizer sample_labels)
    [sample_line; sample_line]
  ∧ uniform_glosses [sample_line; sample_line]
  ∧ ∃ outs,
      prepare_dataset sample_morpheme_tokenize sample_tokenizer sample_labels
        [sample_line; sample_line] = Ok outs
      ∧ Forall2 (mask_matches_ids sample_morpheme_tokenize sample_tokenizer)
          [sample_line; sample_line] outs.
Proof.
  assert (Forall (encodable sample_morpheme_tokenize sample_tokenizer sample_labels)
            [sample_line; sample_line]) as Henc
    by (repeat constructor; apply sample_line_encodable).
  split; [exact Henc|]. split; [exact sample_lines_uniform|].
  exact (prepare_dataset_mask_matches_ids sample_morpheme_tokenize sample_tokenizer
           sample_labels [sample_line; sample_line] Henc sample_lines_uniform).
Defined.

Lemma prepare_dataset_labels_decode_witness :
  Forall (encodable sample_morpheme_tokenize sample_tokenizer sample_labels)
    [sample_line; sample_line]
  ∧ uniform_glosses [sample_line; sample_line]
  ∧ ∃ outs,
      prepare_dataset sample_morpheme_tokenize sample_tokenizer sample_labels
        [sample_line; sample_line] = Ok outs
      ∧ Forall2 (labels_decode sample_labels) [sample_line; sample_line] outs.
Proof.
  assert (Forall (encodable sample_morpheme_tokenize sample_tokenizer sample_labels)
            [sample_line; sample_line]) as Henc
    by (repeat constructor; apply sample_line_encodable).
  split; [exact Henc|]. split; [exact sample_lines_uniform|].
  exact (prepare_dataset_labels_decode sample_morpheme_tokenize sample_tokenizer
           sample_labels [sample_line; sample_line] Henc sample_lines_uniform).
Defined.


(** ** [get_hierarchy_matrix]: rows written, shape, steps *)

Lemma get_cell_Ok (m : list (list Z)) (i j : nat) (v : Z) :
  get_cell m i j = Ok v ↔ ∃ r, m !! i = Some r ∧ r !! j = Some v.
Proof.
  unfold get_cell, get_row. destruct (m !! i) as [r|]; simpl.
  - destruct (r !! j) as [x|] eqn:Hj; split.
    + intros [= <-]. eauto.
    + intros (r' & [= <-] & Hv). congruence.
    + done.
    + intros (r' & [= <-] & Hv). congruence.
  - split; [done|]. by intros (r & ? & _).
Qed.

(** The traversal moves [start_tag] by the number of leaves it handles,
    and a leaf is only handled at a tag of the matrix. *)
Lemma hm_count :
  (∀ it group_prefix start_tag m s' m',
     start_tag ≠ 0%nat →
     hm_item it group_prefix start_tag m = Ok (s', m') →
     s' = (start_tag + length (gloss_item it))%nat
     ∧ (length (gloss_item it) = 0%nat ∨ (s' ≤ length m)%nat))
  ∧ (∀ tree group_prefix start_tag m s' m',
       start_tag ≠ 0%nat →
       hm_parse_tree tree group_prefix start_tag m = Ok (s', m') →
       s' = (start_tag + length (gloss_parse_tree tree))%nat
       ∧ (length (gloss_parse_tree tree) = 0%nat ∨ (s' ≤ length m)%nat)).
Proof.
  set (P := fun it => ∀ group_prefix start_tag (m : list (list Z)) s' (m' : list (list Z)),
     start_tag ≠ 0%nat →
     hm_item it group_prefix start_tag m = Ok (s', m') →
     s' = (start_tag + length (gloss_item it))%nat
     ∧ (length (gloss_item it) = 0%nat ∨ (s' ≤ length m)%nat)).
  set (Q := fun tree => ∀ group_prefix start_tag (m : list (list Z)) s' (m' : list (list Z)),
       start_tag ≠ 0%nat →
       hm_parse_tree tree group_prefix start_tag m = Ok (s', m') →
       s' = (start_tag + length (gloss_parse_tree tree))%nat
       ∧ (length (gloss_parse_tree tree) = 0%nat ∨ (s' ≤ length m)%nat)).
  assert (Hleaf : ∀ gloss, P (Leaf gloss)).
  { intros gloss group_prefix start_tag m s' m' Hne. simpl.
    destruct (hm_leaf group_prefix start_tag m) as [m1|] eqn:Hl; simpl; [|done].
    intros [= <- <-]. apply hm_leaf_Ok in Hl as (r & -> & Hlt). split; lia. }
  assert (Hgroup : ∀ label children, Q children → P (Group label children)).
  { intros label children IH group_prefix start_tag m s' m' Hne.
    rewrite hm_item_group, gloss_item_group.
    destruct (get_cell m (start_tag - 1) (length group_prefix)) as [v|]; simpl; [|done].
    by apply IH. }
  assert (Hnil : Q []).
  { intros group_prefix start_tag m s' m' Hne. simpl. intros [= <- <-].
    unfold gloss_parse_tree. simpl. split; [lia | by left]. }
  assert (Hcons : ∀ x rest, P x → Q rest → Q (x :: rest)).
  { intros x rest IHx IHrest group_prefix start_tag m s' m' Hne. simpl.
    destruct (Nat.eqb_spec start_tag 0) as [|_]; [done|].
    destruct (hm_item x group_prefix start_tag m) as [[s1 m1]|] eqn:Hx; simpl; [|done].
    intros Hrest. pose proof Hx as Hx'.
    apply (proj1 hm_row_zero_preserved) in Hx' as (Hs1 & _ & Hl1); [|done].
    apply IHx in Hx as [-> Hbx]; [|done].
    apply IHrest in Hrest as [-> Hbr]; [|done].
    rewrite gloss_parse_tree_cons, length_app. split; [lia|]. lia. }
  split.
  - intros it. by apply (item_tree_ind P Q).
  - intros tree. by apply (item_tree_ind_list P Q).
Qed.

Lemma row_step_succ (l : list Z) : row_step l ((fun v => v + 1) <$> l).
Proof. unfold row_step. apply Forall2_fmap_r, Forall_Forall2_diag, Forall_forall. auto. Qed.

Lemma row_step_refl (l : list Z) : row_step l l.
Proof. unfold row_step. apply Forall_Forall2_diag, Forall_forall. auto. Qed.

Lemma hm_inv_leaf (w : nat) (group_prefix : list Z) (start_tag : nat)
    (m m' : list (list Z)) :
  hm_inv w group_prefix start_tag m →
  hm_leaf group_prefix start_tag m = Ok m' →
  hm_inv w group_prefix (S start_tag) m'.
Proof.
  intros (Hs & Hrect & Hz & Hsteps & Htail & prev & Hprev & Hk & Hpre) Hl.
  pose proof Hl as Hl'. apply hm_leaf_Ok in Hl' as (_ & _ & Hlt).
  assert (length prev = w) as Hw.
  { rewrite Forall_forall in Hrect. by apply Hrect, list_elem_of_lookup_2 with (start_tag - 1)%nat. }
  rewrite (hm_leaf_in_range group_prefix prev start_tag m) in Hl by (done || lia).
  injection Hl as <-.
  set (new := group_prefix ++ drop (length group_prefix) ((fun v => v + 1) <$> prev)).
  assert (length new = w) as Hnew.
  { unfold new. rewrite length_app, length_drop, length_fmap. lia. }
  split; [lia|]. split; [by apply Forall_insert|]. split; [|split; [|split]].
  - intros r. rewrite list_lookup_insert_ne by lia. apply Hz.
  - intros i a b Hi Ha Hb. destruct (decide (S i = start_tag)) as [Heq|Hne].
    + rewrite list_lookup_insert_ne in Ha by lia.
      rewrite Heq, list_lookup_insert_eq in Hb by done.
      replace (start_tag - 1)%nat with i in Hprev by lia.
      rewrite Hprev in Ha. injection Ha as <-. injection Hb as <-.
      rewrite <- (take_drop (length group_prefix) prev) at 1. unfold new.
      apply Forall2_app; [done|]. rewrite <- fmap_drop. apply row_step_succ.
    + rewrite list_lookup_insert_ne in Ha, Hb by lia. apply (Hsteps i); [lia|done..].
  - intros i r Hi. rewrite list_lookup_insert_ne by lia. apply Htail. lia.
  - exists new. replace (S start_tag - 1)%nat with start_tag by lia.
    rewrite list_lookup_insert_eq by done. split; [done|]. split; [done|].
    unfold new. rewrite take_app_length. apply row_step_refl.
Qed.

Lemma hm_inv_enter_group (w : nat) (group_prefix : list Z) (start_tag : nat)
    (m : list (list Z)) (v : Z) :
  hm_inv w group_prefix start_tag m →
  get_cell m (start_tag - 1) (length group_prefix) = Ok v →
  hm_inv w (group_prefix ++ [v + 1]) start_tag m.
Proof.
  intros (Hs & Hrect & Hz & Hsteps & Htail & prev & Hprev & Hk & Hpre) Hv.
  apply get_cell_Ok in Hv as (r & Hr & Hv). rewrite Hprev in Hr. injection Hr as <-.
  assert (length prev = w) as Hw.
  { rewrite Forall_forall in Hrect. by apply Hrect, list_elem_of_lookup_2 with (start_tag - 1)%nat. }
  apply lookup_lt_Some in Hv as Hlt.
  repeat split; try done. exists prev. split; [done|]. rewrite length_app. simpl.
  split; [lia|]. replace (length group_prefix + 1)%nat with (S (length group_prefix)) by lia.
  rewrite (take_S_r _ _ v) by done. apply Forall2_app; [done|].
  constructor; [by right | constructor].
Qed.

Lemma hm_inv_leave_group (w : nat) (group_prefix : list Z) (x : Z) (start_tag : nat)
    (m : list (list Z)) :
  hm_inv w (group_prefix ++ [x]) start_tag m → hm_inv w group_prefix start_tag m.
Proof.
  intros (Hs & Hrect & Hz & Hsteps & Htail & prev & Hprev & Hk & Hpre).
  repeat split; try done. exists prev. split; [done|].
  rewrite length_app in Hk, Hpre. simpl in Hk. split; [lia|].
  assert (length prev = w) as Hw.
  { rewrite Forall_forall in Hrect. by apply Hrect, list_elem_of_lookup_2 with (start_tag - 1)%nat. }
  simpl in Hpre. rewrite <- take_take_drop in Hpre. unfold row_step in Hpre.
  apply Forall2_app_inv in Hpre as [H _]; [done|].
  rewrite length_take. lia.
Qed.

(** The traversal keeps the invariant. *)
Lemma hm_inv_preserved (w : nat) :
  (∀ it group_prefix start_tag m s' m',
     hm_inv w group_prefix start_tag m →
     hm_item it group_prefix start_tag m = Ok (s', m') →
     hm_inv w group_prefix s' m')
  ∧ (∀ tree group_prefix start_tag m s' m',
       hm_inv w group_prefix start_tag m →
       hm_parse_tree tree group_prefix start_tag m = Ok (s', m') →
       hm_inv w group_prefix s' m').
Proof.
  set (P := fun it => ∀ group_prefix start_tag (m : list (list Z)) s' (m' : list (list Z)),
     hm_inv w group_prefix start_tag m →
     hm_item it group_prefix start_tag m = Ok (s', m') →
     hm_inv w group_prefix s' m').
  set (Q := fun tree => ∀ group_prefix start_tag (m : list (list Z)) s' (m' : list (list Z)),
       hm_inv w group_prefix start_tag m →
       hm_parse_tree tree group_prefix start_tag m = Ok (s', m') →
       hm_inv w group_prefix s' m').
  assert (Hleaf : ∀ gloss, P (Leaf gloss)).
  { intros gloss group_prefix start_tag m s' m' Hinv. simpl.
    destruct (hm_leaf group_prefix start_tag m) as [m1|] eqn:Hl; simpl; [|done].
    intros [= <- <-]. by eapply hm_inv_leaf. }
  assert (Hgroup : ∀ label children, Q children → P (Group label children)).
  { intros label children IH group_prefix start_tag m s' m' Hinv.
    rewrite hm_item_group.
    destruct (get_cell m (start_tag - 1) (length group_prefix)) as [v|] eqn:Hv;
      simpl; [|done].
    intros H. eapply hm_inv_leave_group, IH; [|exact H].
    by apply hm_inv_enter_group. }
  assert (Hnil : Q []).
  { intros group_prefix start_tag m s' m' Hinv. simpl. by intros [= <- <-]. }
  assert (Hcons : ∀ x rest, P x → Q rest → Q (x :: rest)).
  { intros x rest IHx IHrest group_prefix start_tag m s' m' Hinv. simpl.
    destruct (Nat.eqb_spec start_tag 0) as [->|_]; [destruct Hinv; lia|].
    destruct (hm_item x group_prefix start_tag m) as [[s1 m1]|] eqn:Hx; simpl; [|done].
    intros Hrest. eapply IHrest; [|exact Hrest]. by eapply IHx. }
  split.
  - intros it. by apply (item_tree_ind P Q).
  - intros tree. by apply (item_tree_ind_list P Q).
Qed.

Lemma zeros_lookup (n d i : nat) (r : list Z) :
  zeros n d !! i = Some r → r = List.repeat 0 d.
Proof.
  unfold zeros. intros H.
  by apply list_elem_of_lookup_2, list_elem_of_In, repeat_spec in H.
Qed.

Lemma zeros_hm_inv (n d : nat) : (1 ≤ n)%nat → hm_inv d [] 1 (zeros n d).
Proof.
  intros Hn. split; [lia|]. split; [|split; [|split; [|split]]].
  - apply Forall_forall. intros r Hr. apply list_elem_of_lookup in Hr as [i Hr].
    apply zeros_lookup in Hr as ->. apply repeat_length.
  - intros r. apply zeros_lookup.
  - intros i a b Hi. lia.
  - intros i r _. apply zeros_lookup.
  - exists (List.repeat 0 d). simpl. split; [|split; [lia | constructor]].
    unfold zeros. destruct n; [lia|]. done.
Qed.

(** The state in which the traversal ends. *)
Lemma get_hierarchy_matrix_inv (tree : list item) (n d : nat) (m : list (list Z)) :
  get_hierarchy_matrix tree n d = Ok m →
  (1 ≤ n)%nat →
  ∃ s, hm_inv d [] s m
       ∧ ∀ x rest, tree = x :: rest → s = S (length (create_gloss_vocab rest)).
Proof.
  unfold get_hierarchy_matrix. intros H Hn.
  destruct (hm_parse_tree tree [] 0 (zeros n d)) as [[s m']|] eqn:Hp; simpl in H; [|done].
  injection H as <-. destruct tree as [|x rest].
  - injection Hp as <- <-. exists 1%nat. split; [by apply zeros_hm_inv | done].
  - simpl in Hp. exists s. split.
    + eapply (proj2 (hm_inv_preserved d)); [|exact Hp]. by apply zeros_hm_inv.
    + intros x' rest' [= <- <-]. by apply (proj2 hm_count) in Hp as [-> _].
Qed.

(** X17.  When [get_hierarchy_matrix] returns on a tree that is not empty,
    with [k] the number of leaves after the first item: every row has the
    width asked for; if [k] is not 0 then [k + 1] rows fit in the matrix;
    rows 1 to [k] are the ones written, each one step from the row before
    it (every cell stays or grows by one); and the rows from [k + 1] on
    still hold zeros.  The leaves of the first item have no row. *)
Theorem hierarchy_matrix_rows_written (x : item) (rest : list item) (num_tags max_depth : nat)
    (m : list (list Z)) :
  get_hierarchy_matrix (x :: rest) num_tags max_depth = Ok m →
  let k := length (create_gloss_vocab rest) in
  Forall (fun r => length r = max_depth) m
  ∧ (k = 0%nat ∨ (S k ≤ num_tags)%nat)
  ∧ (∀ i a b, (S i ≤ k)%nat → m !! i = Some a → m !! S i = Some b → row_step a b)
  ∧ (∀ i r, (S k ≤ i)%nat → m !! i = Some r → r = List.repeat 0 max_depth).
Proof.
  intros H k. pose proof H as H0. unfold get_hierarchy_matrix in H0.
  destruct (hm_parse_tree (x :: rest) [] 0 (zeros num_tags max_depth)) as [[s m']|] eqn:Hp;
    simpl in H0; [|done].
  injection H0 as ->. simpl in Hp.
  pose proof (proj2 hm_count _ _ _ _ _ _ (ltac:(lia) : 1%nat ≠ 0%nat) Hp) as [Hs Hb].
  pose proof (proj2 hm_row_zero_preserved _ _ _ _ _ _ Hp) as (_ & _ & Hlen).
  assert (length (zeros num_tags max_depth) = num_tags) as Hz
    by (unfold zeros; apply repeat_length).
  rewrite Hz in Hlen, Hb. fold (create_gloss_vocab rest) in Hs, Hb. fold k in Hs, Hb.
  destruct num_tags as [|n'].
  - destruct m; [|done]. split; [constructor|]. split; [lia|]. by split.
  - destruct (get_hierarchy_matrix_inv _ _ _ _ H ltac:(lia)) as (s0 & Hinv & Hs0).
    specialize (Hs0 x rest eq_refl). fold k in Hs0. subst s0.
    destruct Hinv as (_ & Hrect & _ & Hsteps & Htail & _).
    split; [done|]. split; [lia|]. split.
    + intros i a b Hi. apply Hsteps. lia.
    + intros i r Hi. by apply Htail.
Qed.

Lemma hierarchy_matrix_rows_written_witness :
  get_hierarchy_matrix sample_tree 4 2 = Ok [[0; 0]; [1; 1]; [1; 2]; [2; 3]]
  ∧ Forall (fun r => length r = 2%nat) ([[0; 0]; [1; 1]; [1; 2]; [2; 3]] : list (list Z)).
Proof.
  split; [reflexivity|].
  exact (proj1 (hierarchy_matrix_rows_written (Leaf "a")
                  [Group "G" [Leaf "b"; Leaf "c"]; Leaf "d"] 4 2
                  [[0; 0]; [1; 1]; [1; 2]; [2; 3]] eq_refl)).
Defined.

(** ** [get_hierarchy_matrix]: where the row of a leaf comes from *)

Lemma leaf_places_item_group (label : string) (children : list item)
    (entries : list nat) (start_tag : nat) :
  leaf_places_item (Group label children) entries start_tag
  = leaf_places children (entries ++ [start_tag]) start_tag.
Proof.
  simpl. remember (entries ++ [start_tag]) as E eqn:HE. clear HE. revert start_tag.
  induction children as [|x rest IH]; intros start_tag; simpl; [done|].
  by rewrite IH.
Qed.

(** The leaves get the tags from [start_tag] on, one each. *)
Lemma leaf_places_tags :
  (∀ it entries start_tag,
     (leaf_places_item it entries start_tag).*1 = seq start_tag (length (gloss_item it)))
  ∧ (∀ tree entries start_tag,
       (leaf_places tree entries start_tag).*1
       = seq start_tag (length (gloss_parse_tree tree))).
Proof.
  set (P := fun it => ∀ entries start_tag,
     (leaf_places_item it entries start_tag).*1 = seq start_tag (length (gloss_item it))).
  set (Q := fun tree => ∀ entries start_tag,
       (leaf_places tree entries start_tag).*1
       = seq start_tag (length (gloss_parse_tree tree))).
  assert (Hleaf : ∀ gloss, P (Leaf gloss)) by done.
  assert (Hgroup : ∀ label children, Q children → P (Group label children)).
  { intros label children IH entries start_tag.
    rewrite leaf_places_item_group, gloss_item_group. apply IH. }
  assert (Hnil : Q []) by done.
  assert (Hcons : ∀ x rest, P x → Q rest → Q (x :: rest)).
  { intros x rest IHx IHrest entries start_tag. simpl.
    rewrite gloss_parse_tree_cons, length_app, seq_app, fmap_app. by rewrite IHx, IHrest. }
  split.
  - intros it. by apply (item_tree_ind P Q).
  - intros tree. by apply (item_tree_ind_list P Q).
Qed.

(** The group prefix only looks at rows before the tag. *)
Lemma prefix_cells_agree (m m' : list (list Z)) (entries : list nat) (s : nat) :
  (∀ i, (i < s)%nat → m' !! i = m !! i) →
  Forall (fun e => (e ≤ s)%nat) entries →
  (1 ≤ s)%nat →
  imap (prefix_cell m') entries = imap (prefix_cell m) entries.
Proof.
  intros Hagree Hents Hs. apply imap_ext. intros j e He. unfold prefix_cell.
  rewrite Hagree; [done|]. rewrite Forall_forall in Hents.
  specialize (Hents e (list_elem_of_lookup_2 _ _ _ He)). lia.
Qed.

Lemma leaf_row_agree (m m' : list (list Z)) (t : nat) (entries : list nat) :
  (∀ i, (i ≤ t)%nat → m' !! i = m !! i) →
  Forall (fun e => (e ≤ t)%nat) entries →
  (1 ≤ t)%nat →
  leaf_row m t entries → leaf_row m' t entries.
Proof.
  intros Hagree Hents Ht (prev & Hprev & Hrow). exists prev.
  rewrite !Hagree by lia. split; [done|]. rewrite Hrow.
  rewrite (prefix_cells_agree m m' entries t); [done| |done|done].
  intros i Hi. apply Hagree. lia.
Qed.

(** The traversal leaves the rows before [start_tag] alone, and gives each
    leaf that it handles the row that its place asks for. *)
Lemma hm_leaf_rows (w : nat) :
  (∀ it group_prefix entries start_tag m s' m',
     hm_inv w group_prefix start_tag m →
     group_prefix = imap (prefix_cell m) entries →
     Forall (fun e => (e ≤ start_tag)%nat) entries →
     hm_item it group_prefix start_tag m = Ok (s', m') →
     (∀ i, (i < start_tag)%nat → m' !! i = m !! i)
     ∧ Forall (fun p => (start_tag ≤ p.1 < s')%nat
                        ∧ Forall (fun e => (e ≤ p.1)%nat) p.2
                        ∧ leaf_row m' p.1 p.2)
         (leaf_places_item it entries start_tag))
  ∧ (∀ tree group_prefix entries start_tag m s' m',
       hm_inv w group_prefix start_tag m →
       group_prefix = imap (prefix_cell m) entries →
       Forall (fun e => (e ≤ start_tag)%nat) entries →
       hm_parse_tree tree group_prefix start_tag m = Ok (s', m') →
       (∀ i, (i < start_tag)%nat → m' !! i = m !! i)
       ∧ Forall (fun p => (start_tag ≤ p.1 < s')%nat
                          ∧ Forall (fun e => (e ≤ p.1)%nat) p.2
                          ∧ leaf_row m' p.1 p.2)
           (leaf_places tree entries start_tag)).
Proof.
  set (P := fun it => ∀ group_prefix entries start_tag (m : list (list Z)) s'
                        (m' : list (list Z)),
     hm_inv w group_prefix start_tag m →
     group_prefix = imap (prefix_cell m) entries →
     Forall (fun e => (e ≤ start_tag)%nat) entries →
     hm_item it group_prefix start_tag m = Ok (s', m') →
     (∀ i, (i < start_tag)%nat → m' !! i = m !! i)
     ∧ Forall (fun p => (start_tag ≤ p.1 < s')%nat
                        ∧ Forall (fun e => (e ≤ p.1)%nat) p.2
                        ∧ leaf_row m' p.1 p.2)
         (leaf_places_item it entries start_tag)).
  set (Q := fun tree => ∀ group_prefix entries start_tag (m : list (list Z)) s'
                          (m' : list (list Z)),
       hm_inv w group_prefix start_tag m →
       group_prefix = imap (prefix_cell m) entries →
       Forall (fun e => (e ≤ start_tag)%nat) entries →
       hm_parse_tree tree group_prefix start_tag m = Ok (s', m') →
       (∀ i, (i < start_tag)%nat → m' !! i = m !! i)
       ∧ Forall (fun p => (start_tag ≤ p.1 < s')%nat
                          ∧ Forall (fun e => (e ≤ p.1)%nat) p.2
                          ∧ leaf_row m' p.1 p.2)
           (leaf_places tree entries start_tag)).
  assert (Hleaf : ∀ gloss, P (Leaf gloss)).
  { intros gloss group_prefix entries start_tag m s' m' Hinv Hpre Hents. simpl.
    destruct (hm_leaf group_prefix start_tag m) as [m1|] eqn:Hl; simpl; [|done].
    intros [= <- <-].
    destruct Hinv as (Hs & Hrect & _ & _ & _ & prev & Hprev & Hk & _).
    pose proof Hl as Hl'. apply hm_leaf_Ok in Hl' as (_ & _ & Hlt).
    assert (length prev = w) as Hw.
    { rewrite Forall_forall in Hrect.
      by apply Hrect, list_elem_of_lookup_2 with (start_tag - 1)%nat. }
    rewrite (hm_leaf_in_range group_prefix prev start_tag m) in Hl by (done || lia).
    injection Hl as <-.
    assert (∀ i, (i < start_tag)%nat →
                 <[start_tag := group_prefix
                      ++ drop (length group_prefix) ((fun v => v + 1) <$> prev)]> m !! i
                 = m !! i) as Hframe.
    { intros i Hi. apply list_lookup_insert_ne. lia. }
    split; [exact Hframe|]. constructor; [|constructor]. simpl.
    split; [lia|]. split; [done|]. exists prev.
    rewrite Hframe by lia. split; [done|].
    rewrite list_lookup_insert_eq by done.
    rewrite (prefix_cells_agree m _ entries start_tag Hframe Hents Hs).
    rewrite <- Hpre. do 3 f_equal. by rewrite Hpre, length_imap. }
  assert (Hgroup : ∀ label children, Q children → P (Group label children)).
  { intros label children IH group_prefix entries start_tag m s' m' Hinv Hpre Hents.
    rewrite hm_item_group, leaf_places_item_group.
    destruct (get_cell m (start_tag - 1) (length group_prefix)) as [v|] eqn:Hv;
      simpl; [|done].
    apply IH.
    - by apply hm_inv_enter_group.
    - rewrite imap_app. simpl. rewrite <- Hpre. f_equal. f_equal.
      apply get_cell_Ok in Hv as (r & Hr & Hv). unfold prefix_cell.
      rewrite Nat.add_0_r, Hr. simpl.
      replace (length entries) with (length group_prefix)
        by (by rewrite Hpre, length_imap).
      by rewrite Hv.
    - apply Forall_app. split; [done|]. by repeat constructor. }
  assert (Hnil : Q []).
  { intros group_prefix entries start_tag m s' m' _ _ _. simpl. intros [= <- <-].
    split; [done | constructor]. }
  assert (Hcons : ∀ x rest, P x → Q rest → Q (x :: rest)).
  { intros x rest IHx IHrest group_prefix entries start_tag m s' m' Hinv Hpre Hents.
    simpl. assert (1 ≤ start_tag)%nat as Hs by (by destruct Hinv).
    destruct (Nat.eqb_spec start_tag 0) as [|_]; [lia|].
    destruct (hm_item x group_prefix start_tag m) as [[s1 m1]|] eqn:Hx; simpl; [|done].
    intros Hrest.
    pose proof (proj1 (hm_inv_preserved w) _ _ _ _ _ _ Hinv Hx) as Hinv1.
    pose proof (proj1 hm_count _ _ _ _ _ _ (ltac:(lia) : start_tag ≠ 0%nat) Hx)
      as [Hs1 _].
    destruct (IHx _ _ _ _ _ _ Hinv Hpre Hents Hx) as [Hframe1 Hleaves1].
    assert (s1 ≠ 0%nat) as Hne1 by lia.
    pose proof (proj2 hm_count _ _ _ _ _ _ Hne1 Hrest) as [Hs' _].
    assert (group_prefix = imap (prefix_cell m1) entries) as Hpre1.
    { rewrite Hpre at 1. symmetry. by apply (prefix_cells_agree m m1 entries start_tag). }
    assert (Forall (fun e => (e ≤ s1)%nat) entries) as Hents1.
    { eapply Forall_impl; [exact Hents|]. simpl. lia. }
    destruct (IHrest _ _ _ _ _ _ Hinv1 Hpre1 Hents1 Hrest) as [Hframe2 Hleaves2].
    split.
    - intros i Hi. rewrite Hframe2 by lia. by apply Hframe1.
    - apply Forall_app. split.
      + eapply Forall_impl; [exact Hleaves1|]. simpl. intros p (Hp & Hpe & Hrow).
        split; [lia|]. split; [done|].
        apply (leaf_row_agree m1); [|done|lia|done].
        intros i Hi. apply Hframe2. lia.
      + rewrite <- Hs1. eapply Forall_impl; [exact Hleaves2|]. simpl.
        intros p (Hp & Hpe & Hrow). split; [lia|]. by split. }
  split.
  - intros it. by apply (item_tree_ind P Q).
  - intros tree. by apply (item_tree_ind_list P Q).
Qed.




(** ** The groups of a level and the group labels *)

(** Each value of a column occurs together with all smaller ones down
    to 0. *)
Lemma hm_inv_contiguous (w : nat) (group_prefix : list Z) (s : nat) (m : list (list Z))
    (j : nat) :
  hm_inv w group_prefix s m →
  ∀ i row v, m !! i = Some row → row !! j = Some v →
    0 ≤ v ∧ ∀ u, 0 ≤ u ≤ v →
                 ∃ i' row', (i' ≤ i)%nat ∧ m !! i' = Some row' ∧ row' !! j = Some u.
Proof.
  intros (Hs & Hrect & Hz & Hsteps & Htail & _).
  assert (Hzero : ∀ i row v, m !! i = Some row → row = List.repeat 0 w → row !! j = Some v →
            0 ≤ v ∧ ∀ u, 0 ≤ u ≤ v →
                 ∃ i' row', (i' ≤ i)%nat ∧ m !! i' = Some row' ∧ row' !! j = Some u).
  { intros i row v Hrow -> Hv.
    pose proof Hv as Hv0.
    apply list_elem_of_lookup_2, list_elem_of_In, repeat_spec in Hv0. subst v.
    split; [lia|]. intros u Hu. replace u with 0 by lia.
    exists i, (List.repeat 0 w). split; [lia|]. by split. }
  induction i as [|i IH]; intros row v Hrow Hv.
  - apply (Hzero 0%nat row v); [done | by apply Hz | done].
  - destruct (Nat.lt_ge_cases (S i) s) as [Hlt|Hge].
    + assert (is_Some (m !! i)) as [a Ha]
        by (apply lookup_lt_is_Some; apply lookup_lt_Some in Hrow; lia).
      pose proof (Hsteps i a row Hlt Ha Hrow) as Hstep.
      destruct (Forall2_lookup_r _ _ _ _ _ Hstep Hv) as (x & Hx & Hxv).
      destruct (IH a x Ha Hx) as [Hx0 Hall].
      split; [lia|]. intros u Hu.
      destruct (decide (u ≤ x)) as [Hux|Hux].
      * destruct (Hall u ltac:(lia)) as (i' & row' & Hi' & Hrow' & Hu').
        exists i', row'. split; [lia | done].
      * exists (S i), row. replace u with v by lia. done.
    + apply (Hzero (S i) row v); [done | by apply (Htail (S i)) | done].
Qed.

Lemma column_lookup (w : nat) (m : list (list Z)) (level i : nat) :
  Forall (fun r => length r = w) m → (level < w)%nat →
  column m level !! i = m !! i ≫= (fun r => r !! level).
Proof.
  intros Hrect Hl. revert i. unfold column.
  induction Hrect as [|r m Hr _ IH]; intros i; [done|]. simpl.
  destruct (r !! level) as [v|] eqn:Hv.
  - destruct i; simpl; [done | apply IH].
  - apply lookup_ge_None in Hv. lia.
Qed.

Lemma StronglySorted_seqZ (len : nat) (a : Z) :
  StronglySorted Z.le (seqZ a (Z.of_nat len)).
Proof.
  revert a. induction len as [|len IH]; intros a.
  - rewrite seqZ_nil by lia. constructor.
  - rewrite seqZ_cons by lia. replace (Z.pred (Z.of_nat (S len))) with (Z.of_nat len) by lia.
    constructor; [apply IH|]. apply Forall_forall. intros x Hx.
    apply elem_of_seqZ in Hx. lia.
Qed.

Lemma elem_of_group_keys (col : list Z) (v : Z) : v ∈ group_keys col ↔ v ∈ col.
Proof.
  unfold group_keys. by rewrite merge_sort_Permutation, elem_of_remove_dups.
Qed.

(** The keys of a column whose values reach down to 0 without gaps are
    0, 1, 2, and so on. *)
Lemma group_keys_contiguous (col : list Z) :
  (∀ v, v ∈ col → 0 ≤ v ∧ ∀ u, 0 ≤ u ≤ v → u ∈ col) →
  group_keys col = seqZ 0 (Z.of_nat (length (group_keys col))).
Proof.
  intros Hcol. set (keys := group_keys col).
  assert (NoDup keys) as Hnd.
  { unfold keys, group_keys. rewrite merge_sort_Permutation. apply NoDup_remove_dups. }
  assert (∀ v, v ∈ keys → 0 ≤ v < Z.of_nat (length keys)) as Hrange.
  { intros v Hv. unfold keys in Hv. apply (proj1 (elem_of_group_keys col v)) in Hv.
    destruct (Hcol v Hv) as [Hv0 Hall].
    split; [done|].
    assert (seqZ 0 (v + 1) ⊆+ keys) as Hsub.
    { apply NoDup_submseteq; [apply NoDup_seqZ|]. intros u Hu.
      apply elem_of_seqZ in Hu. apply (proj2 (elem_of_group_keys col u)), Hall. lia. }
    apply submseteq_length in Hsub. rewrite length_seqZ in Hsub. lia. }
  assert (keys ≡ₚ seqZ 0 (Z.of_nat (length keys))) as Hperm.
  { apply submseteq_length_Permutation.
    - apply NoDup_submseteq; [done|]. intros v Hv. apply elem_of_seqZ.
      specialize (Hrange v Hv). lia.
    - rewrite length_seqZ. lia. }
  apply (StronglySorted_unique Z.le); [| |done].
  - unfold keys, group_keys. apply StronglySorted_merge_sort; apply _.
  - apply StronglySorted_seqZ.
Qed.

(** X18.  In a matrix returned by [get_hierarchy_matrix], every cell is a
    valid class index for its level: it is not negative, and the group at
    that position among the groups of the level, taken in key order as
    [groupby] lists them, is the group that holds the row of the cell.  So
    the group label read from the matrix names the group of summed logits
    of the tag. *)
Theorem hierarchy_matrix_group_position (tree : list item) (num_tags max_depth : nat)
    (m : list (list Z)) (i level : nat) (v : Z) :
  get_hierarchy_matrix tree num_tags max_depth = Ok m →
  get_cell m i level = Ok v →
  0 ≤ v
  ∧ (Z.to_nat v < length (groupby_groups m level))%nat
  ∧ ∃ g, groupby_groups m level !! Z.to_nat v = Some g ∧ i ∈ g.
Proof.
  intros H Hcell. apply get_cell_Ok in Hcell as (row & Hrow & Hv).
  assert (1 ≤ num_tags)%nat as Hn.
  { assert (length m = num_tags) as <-; [|apply lookup_lt_Some in Hrow; lia].
    unfold get_hierarchy_matrix in H.
    destruct (hm_parse_tree tree [] 0 (zeros num_tags max_depth)) as [[s m']|] eqn:Hp;
      simpl in H; [|done].
    injection H as <-. apply (proj2 hm_row_zero_preserved) in Hp as (_ & _ & ->).
    unfold zeros. apply repeat_length. }
  destruct (get_hierarchy_matrix_inv _ _ _ _ H Hn) as (s & Hinv & _).
  pose proof Hinv as (_ & Hrect & _).
  assert (level < max_depth)%nat as Hlevel.
  { rewrite Forall_forall in Hrect. rewrite <- (Hrect row).
    - by eapply lookup_lt_Some.
    - by eapply list_elem_of_lookup_2. }
  set (col := column m level).
  assert (Hcol : ∀ i' x, col !! i' = Some x ↔ ∃ r, m !! i' = Some r ∧ r !! level = Some x).
  { intros i' x. unfold col. rewrite (column_lookup max_depth) by done.
    destruct (m !! i') as [r|]; simpl; split; try done.
    - intros Hx. eauto.
    - by intros (r' & [= <-] & Hx).
    - by intros (r' & ? & _). }
  assert (Hcontig : ∀ x, x ∈ col → 0 ≤ x ∧ ∀ u, 0 ≤ u ≤ x → u ∈ col).
  { intros x Hx. apply list_elem_of_lookup in Hx as [i' Hx].
    apply Hcol in Hx as (r & Hr & Hx).
    destruct (hm_inv_contiguous _ _ _ _ level Hinv i' r x Hr Hx) as [Hx0 Hall].
    split; [done|]. intros u Hu. destruct (Hall u Hu) as (i'' & r'' & _ & Hr'' & Hu'').
    apply list_elem_of_lookup. exists i''. apply Hcol. eauto. }
  assert (col !! i = Some v) as Hi by (apply Hcol; eauto).
  assert (v ∈ col) as Hvin by (by eapply list_elem_of_lookup_2).
  destruct (Hcontig v Hvin) as [Hv0 _].
  pose proof (group_keys_contiguous col Hcontig) as Hkeys.
  assert (v ∈ group_keys col) as Hvk by (by apply elem_of_group_keys).
  rewrite Hkeys in Hvk. apply elem_of_seqZ in Hvk.
  assert (group_keys col !! Z.to_nat v = Some v) as Hkv.
  { rewrite Hkeys. apply lookup_seqZ. lia. }
  split; [done|]. unfold groupby_groups. fold col. rewrite length_fmap.
  split; [lia|]. exists (group_of col v). rewrite list_lookup_fmap, Hkv. split; [done|].
  unfold group_of. apply list_elem_of_filter. split; [done|].
  apply elem_of_seq. apply lookup_lt_Some in Hi. lia.
Qed.

Lemma hierarchy_matrix_group_position_witness :
  get_hierarchy_matrix sample_tree 4 2 = Ok [[0; 0]; [1; 1]; [1; 2]; [2; 3]]
  ∧ get_cell [[0; 0]; [1; 1]; [1; 2]; [2; 3]] 2 0 = Ok 1
  ∧ ∃ g, groupby_groups [[0; 0]; [1; 1]; [1; 2]; [2; 3]] 0 !! Z.to_nat 1 = Some g
         ∧ 2%nat ∈ g.
Proof.
  split; [reflexivity|]. split; [reflexivity|].
  exact (proj2 (proj2 (hierarchy_matrix_group_position sample_tree 4 2
                         [[0; 0]; [1; 1]; [1; 2]; [2; 3]] 2 0 1 eq_refl eq_refl))).
Defined.

Example sample_tree_groups :
  groupby_groups [[0; 0]; [1; 1]; [1; 2]; [2; 3]] 0 = [[0]; [1; 2]; [3]]%nat.
Proof. vm_compute. reflexivity. Qed.

Lemma mapM_result_fmap_Ok {A B C : Type} (f : B → result C) (g : A → B) (h : A → C)
    (l : list A) :
  Forall (fun x => f (g x) = Ok (h x)) l → mapM f (g <$> l) = Ok (h <$> l).
Proof.
  induction 1 as [|x l Hx _ IH]; [done|].
  rewrite !fmap_cons, mapM_result_cons, Hx, IH. reflexivity.
Qed.

Lemma mapM_result_some_raise {A B : Type} (f : A → result B) (e : exn) (l : list A) :
  Forall (fun x => (∃ y, f x = Ok y) ∨ f x = Raise e) l →
  Exists (fun x => f x = Raise e) l →
  mapM f l = Raise e.
Proof.
  induction 1 as [|x l Hx _ IH]; intros Hex; [inversion Hex|].
  rewrite mapM_result_cons. destruct Hx as [[y Hy]|Hx].
  - rewrite Hy. simpl. inversion Hex as [? ? Hx'|? ? Hex']; subst; [congruence|].
    by rewrite IH.
  - by rewrite Hx.
Qed.

Lemma relabel_fmap (data : list Z) :
  relabel data = (fun v => if v =? -100 then 66 else v) <$> data.
Proof. reflexivity. Qed.

Lemma repeat_lookup_lt {A : Type} (x : A) (n i : nat) :
  (i < n)%nat → List.repeat x n !! i = Some x.
Proof.
  intros H. pose proof (replicate_lookup_lt x (Z.of_nat n) i) as Hr.
  unfold Py.replicate in Hr. rewrite Nat2Z.id in Hr. by apply Hr.
Qed.

Section GroupLabels.

Variable w : nat.
Variable m : list (list Z).
Variable level : nat.
Hypothesis Hrect : Forall (fun r => length r = w) m.
Hypothesis Hlevel : (level < w)%nat.

Lemma group_labels_mapM (labels : list Z) :
  group_labels w m labels level = mapM (group_label w m level) labels.
Proof. reflexivity. Qed.

Lemma group_label_valid (v : Z) :
  0 ≤ v < Z.of_nat (length m) → group_label w m level v = Ok (cell_or m level v).
Proof.
  intros Hv. unfold group_label, np_index.
  destruct (Z.leb_spec 0 v); [|lia].
  destruct (Z.ltb_spec v (Z.of_nat (S (length m)))); [|lia]. simpl.
  assert (is_Some (m !! Z.to_nat v)) as [r Hr] by (apply lookup_lt_is_Some; lia).
  assert (is_Some (r !! level)) as [x Hx].
  { apply lookup_lt_is_Some. rewrite Forall_forall in Hrect.
    rewrite (Hrect r); [done|]. by eapply list_elem_of_lookup_2. }
  unfold cell_or. rewrite Hr. simpl. rewrite Hx. simpl.
  apply get_cell_Ok. exists r. split; [|done].
  unfold with_sentinel. rewrite lookup_app_l by (by eapply lookup_lt_Some). done.
Qed.

Lemma group_label_sentinel_row : group_label w m level (Z.of_nat (length m)) = Ok (-100).
Proof.
  unfold group_label, np_index.
  destruct (Z.leb_spec 0 (Z.of_nat (length m))); [|lia].
  destruct (Z.ltb_spec (Z.of_nat (length m)) (Z.of_nat (S (length m)))); [|lia]. simpl.
  apply get_cell_Ok. exists (List.repeat (-100) w). rewrite Nat2Z.id. split.
  - unfold with_sentinel. rewrite lookup_app_r by lia. by rewrite Nat.sub_diag.
  - by apply repeat_lookup_lt.
Qed.

Lemma group_label_out_of_range (v : Z) :
  Z.of_nat (length m) < v → group_label w m level v = Raise IndexError.
Proof.
  intros Hv. unfold group_label, np_index.
  destruct (Z.ltb_spec v (Z.of_nat (S (length m)))); [lia|].
  destruct (Z.ltb_spec v 0); [lia|]. by rewrite !andb_false_r.
Qed.

(** X19.  The group labels of line 77, for a matrix with rows of width
    [w], a level below [w] and labels that are valid tags or -100, after
    the rewrite of -100 to 66.  With exactly 66 rows, a masked position
    gets the group label -100 of the sentinel row and every other position
    the cell of its tag.  With fewer than 66 rows, a masked position makes
    the lookup raise an [IndexError].  With more than 66 rows nothing is
    raised and a masked position gets the cell of tag 66, as if it were
    labelled with that tag. *)
Theorem group_labels_sentinel (data : list Z) :
  Forall (fun v => v = -100 ∨ 0 ≤ v < Z.of_nat (length m)) data →
  (length m = 66%nat →
   group_labels w m (relabel data) level
   = Ok ((fun v => if v =? -100 then -100 else cell_or m level v) <$> data))
  ∧ ((length m < 66)%nat → -100 ∈ data →
     group_labels w m (relabel data) level = Raise IndexError)
  ∧ ((66 < length m)%nat →
     group_labels w m (relabel data) level
     = Ok ((fun v => cell_or m level (if v =? -100 then 66 else v)) <$> data)).
Proof.
  intros Hdata. rewrite group_labels_mapM, relabel_fmap.
  split; [|split].
  - intros Hn. apply mapM_result_fmap_Ok.
    eapply Forall_impl; [exact Hdata|]. intros v Hv. simpl.
    destruct (Z.eqb_spec v (-100)) as [->|Hne].
    + pose proof group_label_sentinel_row as Hs. by rewrite Hn in Hs.
    + destruct Hv as [?|Hv]; [done|]. by apply group_label_valid.
  - intros Hn Hin. apply mapM_result_some_raise.
    + apply Forall_fmap. eapply Forall_impl; [exact Hdata|]. intros v Hv. simpl.
      destruct (Z.eqb_spec v (-100)) as [->|Hne].
      * right. apply group_label_out_of_range. lia.
      * left. destruct Hv as [?|Hv]; [done|]. rewrite group_label_valid by done. eauto.
    + apply Exists_exists. exists 66. split.
      * apply list_elem_of_fmap. by exists (-100).
      * apply group_label_out_of_range. lia.
  - intros Hn. apply mapM_result_fmap_Ok.
    eapply Forall_impl; [exact Hdata|]. intros v Hv. simpl.
    destruct (Z.eqb_spec v (-100)) as [->|Hne].
    + apply group_label_valid. lia.
    + destruct Hv as [?|Hv]; [done|]. by apply group_label_valid.
Qed.

End GroupLabels.

Lemma group_labels_sentinel_witness :
  Forall (fun r : list Z => length r = 2%nat) (zeros 66 2)
  ∧ (0 < 2)%nat
  ∧ Forall (fun v => v = -100 ∨ 0 ≤ v < Z.of_nat (length (zeros 66 2))) [-100; 3]
  ∧ group_labels 2 (zeros 66 2) (relabel [-100; 3]) 0 = Ok [-100; 0].
Proof.
  assert (Forall (fun r : list Z => length r = 2%nat) (zeros 66 2)) as Hrect.
  { apply Forall_forall. intros r Hr. apply list_elem_of_lookup in Hr as [i Hr].
    by apply zeros_lookup in Hr as ->. }
  assert (Forall (fun v => v = -100 ∨ 0 ≤ v < Z.of_nat (length (zeros 66 2))) [-100; 3])
    as Hdata.
  { constructor; [by left|]. constructor; [|constructor]. right. vm_compute. by split. }
  split; [exact Hrect|]. split; [lia|]. split; [exact Hdata|].
  exact (proj1 (group_labels_sentinel 2 (zeros 66 2) 0 Hrect ltac:(lia) [-100; 3] Hdata)
           eq_refl).
Defined.

(** ** [taxonomic_loss]: a second call on the same tensor *)

Lemma relabel_idem (data : list Z) : relabel (relabel data) = relabel data.
Proof.
  unfold relabel. rewrite map_map. apply map_ext. intros v.
  destruct (Z.eqb_spec v (-100)); [done|]. by destruct (Z.eqb_spec v (-100)).
Qed.

(** X20.  The rewrite of the labels is done once: a second call of
    [taxonomic_loss] on the same labels tensor leaves the store as the
    first call left it and returns what the first call returned, a loss or
    an exception. *)
Theorem taxonomic_loss_second_call (Loss : Type) (loss_add : Loss → Loss → Loss)
    (level_loss : nat → list Z → result Loss) (h : gmap nat storage) (l : nat)
    (s : storage) :
  h !! l = Some s →
  taxonomic_loss loss_add level_loss (taxonomic_loss loss_add level_loss h l).1 l
  = taxonomic_loss loss_add level_loss h l.
Proof.
  intros H. rewrite (taxonomic_loss_store _ _ _ h l s H). simpl.
  set (f := fun s => mkStorage (st_device s) (relabel (st_data s))).
  assert (alter f l h !! l = Some (f s)) as H1 by (by rewrite lookup_alter_eq, H).
  rewrite (taxonomic_loss_store _ _ _ _ l (f s) H1). simpl. rewrite relabel_idem.
  f_equal. apply map_eq. intros k. destruct (decide (k = l)) as [->|Hne].
  - rewrite lookup_alter_eq, H1. simpl. unfold f. simpl. by rewrite relabel_idem.
  - by rewrite lookup_alter_ne.
Qed.

Lemma taxonomic_loss_second_call_witness :
  sample_heap !! 0%nat = Some (mkStorage Cpu [-100; 3; -100])
  ∧ taxonomic_loss Z.add (fun _ _ => Ok 0)
      (taxonomic_loss Z.add (fun _ _ => Ok 0) sample_heap 0%nat).1 0%nat
    = taxonomic_loss Z.add (fun _ _ => Ok 0) sample_heap 0%nat.
Proof.
  split; [reflexivity|].
  exact (taxonomic_loss_second_call Z Z.add (fun _ _ => Ok 0) sample_heap 0%nat
           (mkStorage Cpu [-100; 3; -100]) eq_refl).
Defined.

(** ** [get_hierarchy_matrix]: when it returns *)

Lemma tree_depth_cons (x : item) (rest : list item) :
  tree_depth (x :: rest) = Nat.max (item_depth x) (tree_depth rest).
Proof. reflexivity. Qed.

Lemma hm_inv_row_width (w : nat) (group_prefix : list Z) (s : nat) (m : list (list Z))
    (i : nat) (r : list Z) :
  hm_inv w group_prefix s m → m !! i = Some r → length r = w.
Proof.
  intros (_ & Hrect & _) Hr. rewrite Forall_forall in Hrect.
  by eapply Hrect, list_elem_of_lookup_2.
Qed.

(** Enough rows and enough columns: the traversal goes through. *)
Lemma hm_total (w : nat) :
  (∀ it group_prefix start_tag (m : list (list Z)),
     hm_inv w group_prefix start_tag m →
     (start_tag + length (gloss_item it) ≤ length m)%nat →
     (length group_prefix + item_depth it ≤ w)%nat →
     ∃ s' m', hm_item it group_prefix start_tag m = Ok (s', m'))
  ∧ (∀ tree group_prefix start_tag (m : list (list Z)),
       hm_inv w group_prefix start_tag m →
       (start_tag + length (gloss_parse_tree tree) ≤ length m)%nat →
       (length group_prefix + tree_depth tree ≤ w)%nat →
       ∃ s' m', hm_parse_tree tree group_prefix start_tag m = Ok (s', m')).
Proof.
  set (P := fun it => ∀ group_prefix start_tag (m : list (list Z)),
     hm_inv w group_prefix start_tag m →
     (start_tag + length (gloss_item it) ≤ length m)%nat →
     (length group_prefix + item_depth it ≤ w)%nat →
     ∃ s' m', hm_item it group_prefix start_tag m = Ok (s', m')).
  set (Q := fun tree => ∀ group_prefix start_tag (m : list (list Z)),
       hm_inv w group_prefix start_tag m →
       (start_tag + length (gloss_parse_tree tree) ≤ length m)%nat →
       (length group_prefix + tree_depth tree ≤ w)%nat →
       ∃ s' m', hm_parse_tree tree group_prefix start_tag m = Ok (s', m')).
  assert (Hleaf : ∀ gloss, P (Leaf gloss)).
  { intros gloss group_prefix start_tag m Hinv Hrows Hcols. simpl in *.
    pose proof Hinv as (_ & _ & _ & _ & _ & prev & Hprev & Hk & _).
    pose proof (hm_inv_row_width _ _ _ _ _ _ Hinv Hprev) as Hw.
    rewrite (hm_leaf_in_range group_prefix prev) by (done || lia). simpl. eauto. }
  assert (Hgroup : ∀ label children, Q children → P (Group label children)).
  { intros label children IH group_prefix start_tag m Hinv Hrows Hcols.
    rewrite hm_item_group. rewrite gloss_item_group in Hrows. simpl in Hcols.
    pose proof Hinv as (_ & _ & _ & _ & _ & prev & Hprev & Hk & _).
    pose proof (hm_inv_row_width _ _ _ _ _ _ Hinv Hprev) as Hw.
    assert (is_Some (prev !! length group_prefix)) as [v Hv]
      by (apply lookup_lt_is_Some; lia).
    assert (get_cell m (start_tag - 1) (length group_prefix) = Ok v) as Hcell
      by (apply get_cell_Ok; eauto).
    rewrite Hcell. simpl. apply IH.
    - by apply hm_inv_enter_group.
    - done.
    - rewrite length_app. simpl. fold (tree_depth children) in Hcols. lia. }
  assert (Hnil : Q []).
  { intros group_prefix start_tag m _ _ _. simpl. eauto. }
  assert (Hcons : ∀ x rest, P x → Q rest → Q (x :: rest)).
  { intros x rest IHx IHrest group_prefix start_tag m Hinv Hrows Hcols. simpl.
    destruct (Nat.eqb_spec start_tag 0) as [->|Hne]; [destruct Hinv; lia|].
    rewrite gloss_parse_tree_cons, length_app in Hrows.
    rewrite tree_depth_cons in Hcols.
    destruct (IHx group_prefix start_tag m Hinv) as (s1 & m1 & Hx); [lia | lia |].
    rewrite Hx. simpl.
    pose proof (proj1 (hm_inv_preserved w) _ _ _ _ _ _ Hinv Hx) as Hinv1.
    pose proof (proj1 hm_count _ _ _ _ _ _ Hne Hx) as [-> _].
    pose proof (proj1 hm_row_zero_preserved _ _ _ _ _ _ Hne Hx) as (_ & _ & Hlen).
    apply IHrest; [done | lia | lia]. }
  split.
  - intros it. by apply (item_tree_ind P Q).
  - intros tree. by apply (item_tree_ind_list P Q).
Qed.

(** A traversal that goes through has met no group deeper than the
    matrix is wide. *)
Lemma hm_depth (w : nat) :
  (∀ it group_prefix start_tag (m : list (list Z)) s' m',
     hm_inv w group_prefix start_tag m →
     hm_item it group_prefix start_tag m = Ok (s', m') →
     (length group_prefix + item_depth it ≤ w)%nat)
  ∧ (∀ tree group_prefix start_tag (m : list (list Z)) s' m',
       hm_inv w group_prefix start_tag m →
       hm_parse_tree tree group_prefix start_tag m = Ok (s', m') →
       (length group_prefix + tree_depth tree ≤ w)%nat).
Proof.
  set (P := fun it => ∀ group_prefix start_tag (m : list (list Z)) s' (m' : list (list Z)),
     hm_inv w group_prefix start_tag m →
     hm_item it group_prefix start_tag m = Ok (s', m') →
     (length group_prefix + item_depth it ≤ w)%nat).
  set (Q := fun tree => ∀ group_prefix start_tag (m : list (list Z)) s' (m' : list (list Z)),
       hm_inv w group_prefix start_tag m →
       hm_parse_tree tree group_prefix start_tag m = Ok (s', m') →
       (length group_prefix + tree_depth tree ≤ w)%nat).
  assert (Hleaf : ∀ gloss, P (Leaf gloss)).
  { intros gloss group_prefix start_tag m s' m' Hinv _. simpl.
    destruct Hinv as (_ & _ & _ & _ & _ & prev & _ & Hk & _). lia. }
  assert (Hgroup : ∀ label children, Q children → P (Group label children)).
  { intros label children IH group_prefix start_tag m s' m' Hinv.
    rewrite hm_item_group.
    destruct (get_cell m (start_tag - 1) (length group_prefix)) as [v|] eqn:Hv;
      simpl; [|done].
    intros H. apply IH in H; [|by apply hm_inv_enter_group].
    rewrite length_app in H. simpl in H. fold (tree_depth children). lia. }
  assert (Hnil : Q []).
  { intros group_prefix start_tag m s' m' Hinv _. unfold tree_depth. simpl.
    destruct Hinv as (_ & _ & _ & _ & _ & prev & _ & Hk & _). lia. }
  assert (Hcons : ∀ x rest, P x → Q rest → Q (x :: rest)).
  { intros x rest IHx IHrest group_prefix start_tag m s' m' Hinv. simpl.
    destruct (Nat.eqb_spec start_tag 0) as [->|Hne]; [destruct Hinv; lia|].
    destruct (hm_item x group_prefix start_tag m) as [[s1 m1]|] eqn:Hx; simpl; [|done].
    intros Hrest. rewrite tree_depth_cons.
    pose proof (IHx _ _ _ _ _ Hinv Hx).
    pose proof (proj1 (hm_inv_preserved w) _ _ _ _ _ _ Hinv Hx) as Hinv1.
    pose proof (IHrest _ _ _ _ _ Hinv1 Hrest). lia. }
  split.
  - intros it. by apply (item_tree_ind P Q).
  - intros tree. by apply (item_tree_ind_list P Q).
Qed.

(** X21.  [get_hierarchy_matrix] on a tree with first item [x] and further
    items [rest] returns a matrix exactly when [rest] is empty, or the
    leaves of [rest] and one more row fit in [num_tags] rows and no group
    of [rest] is nested deeper than [max_depth]; otherwise it raises.  The
    first item plays no part. *)
Theorem get_hierarchy_matrix_returns (x : item) (rest : list item) (num_tags max_depth : nat) :
  (∃ m, get_hierarchy_matrix (x :: rest) num_tags max_depth = Ok m)
  ↔ rest = []
    ∨ ((S (length (create_gloss_vocab rest)) ≤ num_tags)%nat
       ∧ (tree_depth rest ≤ max_depth)%nat).
Proof.
  assert (length (zeros num_tags max_depth) = num_tags) as Hz
    by (unfold zeros; apply repeat_length).
  unfold get_hierarchy_matrix. simpl. split.
  - intros [m H].
    destruct (hm_parse_tree rest [] 1 (zeros num_tags max_depth)) as [[s m']|] eqn:Hp;
      simpl in H; [|done].
    destruct rest as [|y rest']; [by left|]. right.
    destruct num_tags as [|n'].
    { exfalso. unfold zeros in Hp. simpl in Hp. destruct y; simpl in Hp; done. }
    pose proof (zeros_hm_inv (S n') max_depth ltac:(lia)) as Hinv.
    split.
    + pose proof (proj2 hm_count _ _ _ _ _ _ (ltac:(lia) : 1%nat ≠ 0%nat) Hp) as [Hs Hb].
      rewrite Hz in Hb. unfold create_gloss_vocab. lia.
    + by pose proof (proj2 (hm_depth max_depth) _ _ _ _ _ _ Hinv Hp).
  - intros [-> | [Hrows Hcols]]; [simpl; eauto|].
    destruct (proj2 (hm_total max_depth) rest [] 1%nat (zeros num_tags max_depth))
      as (s' & m' & ->); simpl; eauto.
    + apply zeros_hm_inv. lia.
    + rewrite Hz. unfold create_gloss_vocab in Hrows. lia.
Qed.

Lemma get_hierarchy_matrix_returns_witness :
  ((S (length (create_gloss_vocab [Group "G" [Leaf "b"; Leaf "c"]; Leaf "d"])) ≤ 4)%nat
   ∧ (tree_depth [Group "G" [Leaf "b"; Leaf "c"]; Leaf "d"] ≤ 2)%nat)
  ∧ ∃ m, get_hierarchy_matrix sample_tree 4 2 = Ok m.
Proof.
  assert ((S (length (create_gloss_vocab [Group "G" [Leaf "b"; Leaf "c"]; Leaf "d"])) ≤ 4)%nat
          ∧ (tree_depth [Group "G" [Leaf "b"; Leaf "c"]; Leaf "d"] ≤ 2)%nat) as H
    by (vm_compute; split; lia).
  split; [exact H|].
  exact (proj2 (get_hierarchy_matrix_returns (Leaf "a")
                  [Group "G" [Leaf "b"; Leaf "c"]; Leaf "d"] 4 2) (or_intror H)).
Defined.

(** ** From the loader to the dataset: glosses without a tag *)

(** X22.  A line whose glosses hold nothing but hyphens and whitespace,
    with [should_segment] set as the loader sets it, makes
    [prepare_dataset] raise a [TypeError] while the dictionaries are
    built, provided those of the lines before it can be built. *)
Theorem prepare_dataset_empty_glosses (morpheme_tokenize : string → list string)
    (tokenizer : WordLevelTokenizer) (label_vocab : list string)
    (pre post : list IGTLine) (line : IGTLine) (g : string) :
  Forall (fun l => ∃ r, IGTLine_dict morpheme_tokenize l = Ok r) pre →
  glosses line = Some g →
  should_segment line = true →
  Py.existsb_str tag_char g = false →
  prepare_dataset morpheme_tokenize tokenizer label_vocab (pre ++ line :: post)
  = Raise TypeError.
Proof.
  intros Hpre Hg Hseg Htag.
  assert (IGTLine_dict morpheme_tokenize line = Raise TypeError) as Hline.
  { unfold IGTLine_dict. rewrite Hg, Hseg.
    pose proof (gloss_list_segmented_of line g Hg) as H. rewrite Htag in H.
    by rewrite H. }
  unfold prepare_dataset. by rewrite (mapM_result_raise _ pre post line TypeError).
Qed.

Lemma prepare_dataset_empty_glosses_witness :
  load_lines [String backslash "p -"] = [IGTLine_init None None (Some "-") None]
  ∧ prepare_dataset sample_morpheme_tokenize sample_tokenizer sample_labels
      ([sample_line] ++ IGTLine_init None None (Some "-") None :: [])
    = Raise TypeError.
Proof.
  split; [reflexivity|].
  apply (prepare_dataset_empty_glosses sample_morpheme_tokenize sample_tokenizer
           sample_labels [sample_line] [] (IGTLine_init None None (Some "-") None) "-").
  - constructor; [|constructor]. eexists. reflexivity.
  - reflexivity.
  - reflexivity.
  - reflexivity.
Defined.

(** ** [taxonomic_loss]: a level that raises *)

Lemma loss_fold_raise {Loss : Type} (loss_add : Loss → Loss → Loss)
    (level_loss : nat → list Z → result Loss) (data : list Z) (levels : list nat)
    (e : exn) :
  fold_left (loss_step loss_add level_loss data) levels (Raise e) = Raise e.
Proof. induction levels as [|k levels IH]; [done|]. simpl. apply IH. Qed.

Lemma loss_fold_first_raise {Loss : Type} (loss_add : Loss → Loss → Loss)
    (level_loss : nat → list Z → result Loss) (data : list Z) (pre post : list nat)
    (k : nat) (e : exn) (acc : option Loss) :
  Forall (fun j => ∃ x, level_loss j data = Ok x) pre →
  level_loss k data = Raise e →
  fold_left (loss_step loss_add level_loss data) (pre ++ k :: post) (Ok acc) = Raise e.
Proof.
  intros Hpre Hk. revert acc.
  induction Hpre as [|j pre [x Hx] _ IH]; intros acc; cbn [app fold_left].
  - assert (loss_step loss_add level_loss data (Ok acc) k = Raise e) as ->
      by (unfold loss_step; simpl; by rewrite Hk).
    apply loss_fold_raise.
  - assert (∃ acc', loss_step loss_add level_loss data (Ok acc) j = Ok acc') as [acc' ->]
      by (unfold loss_step; simpl; rewrite Hx; simpl; destruct acc; eauto).
    apply IH.
Qed.

(** X23.  When the loss of a level raises and the levels before it do
    not, [taxonomic_loss] raises that exception, and the labels tensor has
    been rewritten all the same: the caller finds 66 in place of -100
    after the failed call. *)
Theorem taxonomic_loss_raises (Loss : Type) (loss_add : Loss → Loss → Loss)
    (level_loss : nat → list Z → result Loss) (h : gmap nat storage) (l : nat)
    (s : storage) (k : nat) (e : exn) :
  h !! l = Some s →
  (k < 5)%nat →
  (∀ j, (j < k)%nat → ∃ x, level_loss j (relabel (st_data s)) = Ok x) →
  level_loss k (relabel (st_data s)) = Raise e →
  (taxonomic_loss loss_add level_loss h l).2 = Raise e
  ∧ (taxonomic_loss loss_add level_loss h l).1 !! l
    = Some (mkStorage (st_device s) (relabel (st_data s))).
Proof.
  intros H Hk Hpre Hraise. rewrite (taxonomic_loss_store _ _ _ h l s H). cbn [fst snd].
  split; [|by rewrite lookup_alter_eq, H].
  assert (seq 0 5 = seq 0 k ++ k :: seq (S k) (4 - k)) as ->.
  { replace 5%nat with (k + S (4 - k))%nat at 1 by lia. rewrite seq_app. simpl. done. }
  apply loss_fold_first_raise; [|done].
  apply Forall_forall. intros j Hj. apply elem_of_seq in Hj. apply Hpre. lia.
Qed.

Lemma taxonomic_loss_raises_witness :
  sample_heap !! 0%nat = Some (mkStorage Cpu [-100; 3; -100])
  ∧ (taxonomic_loss Z.add
       (fun level _ => if (level =? 2)%nat then Raise IndexError else Ok 0)
       sample_heap 0%nat).2 = Raise IndexError.
Proof.
  split; [reflexivity|].
  refine (proj1 (taxonomic_loss_raises Z Z.add
                   (fun level _ => if (level =? 2)%nat then Raise IndexError else Ok 0)
                   sample_heap 0%nat (mkStorage Cpu [-100; 3; -100]) 2 IndexError
                   eq_refl _ _ eq_refl)).
  - lia.
  - intros j Hj. destruct j as [|[|j]]; [eexists; reflexivity..|lia].
Defined.
